(** * Half-edge mesh editing, traversal and operator assembly (compas)

    A shallow embedding of
      - [compas/datastructures/mesh/operations/split.py]
      - [compas/datastructures/mesh/components.py]
      - [compas/datastructures/mesh/matrices.py]
    together with the statements established about them.

    Vertex and face identifiers are integers; coordinates and matrix
    entries are idealised as rationals.  A Python call that may raise is a
    computation in a state-and-exception monad over the mesh: the state
    that an exception leaves behind is part of the outcome. *)

From Stdlib Require Import ZArith QArith Lia.
From stdpp Require Import base option list gmap fin_maps fin_sets relations.

Set Warnings "-clear-no-such-hyp".
Open Scope Z_scope.

(** ** Exceptions and outcomes *)

Inductive exn : Type :=
  | KeyError
  | ValueError
  | IndexError
  | TypeError
  | AttributeError
  | ZeroDivisionError
  | InvalidTopology.

Inductive result (A : Type) : Type :=
  | Ok (a : A)
  | Raise (e : exn).
Arguments Ok {A} a.
Arguments Raise {A} e.

#[global] Instance exn_eq_dec : EqDecision exn.
Proof. solve_decision. Defined.

(** ** The mesh aggregate *)

Record xyz : Type := XYZ { px : Q; py : Q; pz : Q }.

Record Mesh : Type := mkMesh {
  vertex : gmap Z xyz;
  face : gmap Z (list Z);
  halfedge : gmap Z (gmap Z (option Z));
  max_int_key : Z;
  max_int_fkey : Z
}.

Definition set_vertex (f : gmap Z xyz → gmap Z xyz) (m : Mesh) : Mesh :=
  mkMesh (f (vertex m)) (face m) (halfedge m) (max_int_key m) (max_int_fkey m).
Definition set_face (f : gmap Z (list Z) → gmap Z (list Z)) (m : Mesh) : Mesh :=
  mkMesh (vertex m) (f (face m)) (halfedge m) (max_int_key m) (max_int_fkey m).
Definition set_halfedge
    (f : gmap Z (gmap Z (option Z)) → gmap Z (gmap Z (option Z))) (m : Mesh) : Mesh :=
  mkMesh (vertex m) (face m) (f (halfedge m)) (max_int_key m) (max_int_fkey m).
Definition set_max_int_key (k : Z) (m : Mesh) : Mesh :=
  mkMesh (vertex m) (face m) (halfedge m) k (max_int_fkey m).
Definition set_max_int_fkey (k : Z) (m : Mesh) : Mesh :=
  mkMesh (vertex m) (face m) (halfedge m) (max_int_key m) k.

(** ** State-and-exception monad *)

Definition M (A : Type) : Type := Mesh → result A * Mesh.

Definition ret {A} (a : A) : M A := λ m, (Ok a, m).
Definition raise {A} (e : exn) : M A := λ m, (Raise e, m).
Definition bind {A B} (c : M A) (k : A → M B) : M B :=
  λ m, match c m with
       | (Ok a, m') => k a m'
       | (Raise e, m') => (Raise e, m')
       end.
Definition lift {A} (r : result A) : M A := λ m, (r, m).

Declare Scope mesh_scope.
Delimit Scope mesh_scope with mesh.
Notation "'let*' x ':=' c 'in' k" := (bind c (λ x, k))
  (at level 10, x name, c at level 100, k at level 200) : mesh_scope.
Notation "c1 '>>>' c2" := (bind c1 (λ _, c2))
  (at level 100, c2 at level 200, right associativity) : mesh_scope.
Open Scope mesh_scope.

(** ** Python sequence primitives *)

(** [l.index(x)]: position of the first occurrence, [ValueError] if absent. *)
Fixpoint index (x : Z) (l : list Z) : result nat :=
  match l with
  | [] => Raise ValueError
  | y :: l' => if decide (y = x) then Ok O
               else match index x l' with
                    | Ok n => Ok (S n)
                    | Raise e => Raise e
                    end
  end.

(** [l.insert(j, w)] for [0 <= j]. *)
Definition list_insert_at (j : nat) (w : Z) (l : list Z) : list Z :=
  take j l ++ w :: drop j l.

(** [l[i]] with Python's negative indices. *)
Definition getitem (l : list Z) (i : Z) : result Z :=
  let n := Z.of_nat (length l) in
  let i' := if decide (i < 0) then i + n else i in
  if decide (0 ≤ i' < n)
  then match l !! Z.to_nat i' with Some x => Ok x | None => Raise IndexError end
  else Raise IndexError.

(** [l[i:j]] for [0 <= i], [0 <= j]. *)
Definition slice (i j : nat) (l : list Z) : list Z := take (j - i) (drop i l).

(** ** Mesh primitives *)

(** [self.halfedge[u][v]] *)
Definition halfedge_get (u v : Z) : M (option Z) := λ m,
  match halfedge m !! u with
  | None => (Raise KeyError, m)
  | Some row => match row !! v with
                | None => (Raise KeyError, m)
                | Some f => (Ok f, m)
                end
  end.

(** [self.halfedge[u][v] = f] *)
Definition halfedge_set (u v : Z) (f : option Z) : M unit := λ m,
  match halfedge m !! u with
  | None => (Raise KeyError, m)
  | Some row => (Ok tt, set_halfedge (insert u (<[v := f]> row)) m)
  end.

(** [del self.halfedge[u][v]] *)
Definition halfedge_del (u v : Z) : M unit := λ m,
  match halfedge m !! u with
  | None => (Raise KeyError, m)
  | Some row => match row !! v with
                | None => (Raise KeyError, m)
                | Some _ => (Ok tt, set_halfedge (insert u (delete v row)) m)
                end
  end.

(** [self.face[fkey]] *)
Definition face_get (fkey : Z) : M (list Z) := λ m,
  match face m !! fkey with
  | None => (Raise KeyError, m)
  | Some l => (Ok l, m)
  end.

(** [del self.face[fkey]] *)
Definition face_del (fkey : Z) : M unit := λ m,
  match face m !! fkey with
  | None => (Raise KeyError, m)
  | Some _ => (Ok tt, set_face (delete fkey) m)
  end.

(** [self.face[fkey].insert(self.face[fkey].index(x), w)]: the loop stored
    under [fkey] is edited in place. *)
Definition face_insert_before (fkey x w : Z) : M unit :=
  let* l := face_get fkey in
  let* j := lift (index x l) in
  λ m, (Ok tt, set_face (insert fkey (list_insert_at j w l)) m).

(** Modelled from the spec: [Mesh.vertex_coordinates] and [Mesh.edge_point]
    are not part of the sources at hand.  The spec has the editor compute
    "the interpolated point at parameter t along (u, v)"; the point is
    [a + t * (b - a)] on each axis, [a] and [b] the positions of [u] and
    [v]. *)
Definition vertex_coordinates (u : Z) : M xyz := λ m,
  match vertex m !! u with
  | None => (Raise KeyError, m)
  | Some p => (Ok p, m)
  end.

(** Modelled from the spec: the point at parameter [t] between the
    positions [a] and [b], as [Mesh.edge_point] (not in the sources at
    hand) computes it. *)
Definition interpolate (a b : xyz) (t : Q) : xyz :=
  XYZ (px a + t * (px b - px a))%Q
      (py a + t * (py b - py a))%Q
      (pz a + t * (pz b - pz a))%Q.

(** Modelled from the spec: [Mesh.edge_point], see [vertex_coordinates]. *)
Definition edge_point (u v : Z) (t : Q) : M xyz :=
  let* a := vertex_coordinates u in
  let* b := vertex_coordinates v in
  ret (interpolate a b t).

(** Modelled from the spec: [Mesh.add_vertex] is not part of the sources at
    hand.  The spec's identifier registry hands out the key; here it is the
    successor of the largest integer key handed out so far.  The vertex is
    entered in the vertex table and receives an empty row of the half-edge
    index (the editor writes [self.halfedge[w][v]] right after creating
    [w]).  Rational positions are always finite, so the spec's
    [InvalidGeometry] failure cannot occur. *)
Definition add_vertex (p : xyz) : M Z := λ m,
  let key := max_int_key m + 1 in
  let m1 := set_max_int_key key m in
  let m2 := set_vertex (insert key p) m1 in
  let m3 := match halfedge m2 !! key with
            | None => set_halfedge (insert key ∅) m2
            | Some _ => m2
            end in
  (Ok key, m3).

(** What [Mesh.add_face] does with a half-edge that an existing face
    already claims.  [Reject] is what the spec describes: the new face is
    turned down with [InvalidTopology].  [Accept] is not one of the spec's
    options; it hands the half-edge over to the new face, which is what
    the routines of [split.py] presuppose: they add the replacement faces
    while the face they replace is still in the face table. *)
Inductive nonmanifold_policy : Type := Reject | Accept.

(** Modelled from the spec: the consecutive pairs of a face loop, the last
    entry pairing with the first ([Mesh.add_face] is not in the sources at
    hand). *)
Definition pairwise_cyclic (l : list Z) : list (Z * Z) :=
  zip l (drop 1 l ++ take 1 l).

(** Modelled from the spec: the pair "already maps to an existing face". *)
Definition claimed (m : Mesh) (uv : Z * Z) : bool :=
  match halfedge m !! uv.1 with
  | Some row => match row !! uv.2 with
                | Some (Some f) => bool_decide (is_Some (face m !! f))
                | _ => false
                end
  | None => false
  end.

(** Modelled from the spec: [Mesh.add_face] "populates half-edge entries
    for each consecutive pair". *)
Fixpoint write_halfedges (fkey : Z) (pairs : list (Z * Z)) : M unit :=
  match pairs with
  | [] => ret tt
  | (u, v) :: rest => halfedge_set u v (Some fkey) >>> write_halfedges fkey rest
  end.

(** Modelled from the spec: [Mesh.add_face] "registers the face", under
    the successor of the largest face key handed out so far. *)
Definition register_face (vertices : list Z) : M Z := λ m,
  let fkey := max_int_fkey m + 1 in
  (Ok fkey, set_face (insert fkey vertices) (set_max_int_fkey fkey m)).

Section Editor.

Variable policy : nonmanifold_policy.

(** Modelled from the spec: [Mesh.add_face] is not part of the sources at
    hand.  The spec requires every vertex of the loop to exist and the loop
    to have at least three distinct entries, registers the loop under a
    fresh face identifier and populates the half-edge entry of each
    consecutive pair.  On a consecutive pair that an existing face already
    claims, [Reject] fails with [InvalidTopology] and [Accept] hands the
    half-edge over to the new face.  A violated requirement is reported as
    [InvalidTopology] before anything is written. *)
Definition add_face (vertices : list Z) : M Z := λ m,
  if negb (forallb (λ u, bool_decide (is_Some (vertex m !! u))) vertices)
  then (Raise InvalidTopology, m)
  else if bool_decide (length (remove_dups vertices) < 3)%nat
  then (Raise InvalidTopology, m)
  else if match policy with
          | Reject => existsb (claimed m) (pairwise_cyclic vertices)
          | Accept => false
          end
  then (Raise InvalidTopology, m)
  else (let* fkey := register_face vertices in
        write_halfedges fkey (pairwise_cyclic vertices) >>>
        ret fkey) m.

(** ** [split.py] *)

Definition is_none (f : option Z) : bool :=
  match f with None => true | Some _ => false end.

Definition mesh_split_edge (u v : Z) (t : Q) (allow_boundary : bool) : M (option Z) :=
  if Qle_bool t 0 then raise ValueError
  else if Qle_bool 1 t then raise ValueError
  else
    let* fkey_uv := halfedge_get u v in
    let* fkey_vu := halfedge_get v u in
    if negb allow_boundary && (is_none fkey_uv || is_none fkey_vu) then ret None
    else
      let* p := edge_point u v t in
      let* w := add_vertex p in
      halfedge_set u w fkey_uv >>>
      halfedge_set w v fkey_uv >>>
      halfedge_del u v >>>
      match fkey_uv with
      | Some f => face_insert_before f v w
      | None => ret tt
      end >>>
      halfedge_set v w fkey_vu >>>
      halfedge_set w u fkey_vu >>>
      halfedge_del v u >>>
      match fkey_vu with
      | Some f => face_insert_before f u w
      | None => ret tt
      end >>>
      ret (Some w).

(** [o = face[face.index(x) - 1]] *)
Definition opposite (fkey x : Z) : M Z :=
  let* l := face_get fkey in
  let* i := lift (index x l) in
  lift (getitem l (Z.of_nat i - 1)).

Definition trimesh_split_edge (u v : Z) (t : Q) (allow_boundary : bool) : M (option Z) :=
  if Qle_bool t 0 then raise ValueError
  else if Qle_bool 1 t then raise ValueError
  else
    let* fkey_uv := halfedge_get u v in
    let* fkey_vu := halfedge_get v u in
    if negb allow_boundary && (is_none fkey_uv || is_none fkey_vu) then ret None
    else
      let* p := edge_point u v t in
      let* w := add_vertex p in
      match fkey_uv with
      | None =>
          halfedge_set u w None >>>
          halfedge_set w v None >>>
          halfedge_del u v
      | Some f =>
          let* o := opposite f u in
          add_face [u; w; o] >>>
          add_face [w; v; o] >>>
          halfedge_del u v >>>
          face_del f
      end >>>
      match fkey_vu with
      | None =>
          halfedge_set v w None >>>
          halfedge_set w u None >>>
          halfedge_del v u
      | Some f =>
          let* o := opposite f v in
          add_face [v; w; o] >>>
          add_face [w; u; o] >>>
          halfedge_del v u >>>
          face_del f
      end >>>
      ret (Some w).

(** [x in l] *)
Definition contains (x : Z) (l : list Z) : bool := bool_decide (x ∈ l).

Definition mesh_split_face (fkey u v : Z) : M (Z * Z) :=
  let* l := face_get fkey in
  if negb (contains u l) || negb (contains v l) then raise ValueError
  else
    let* face := face_get fkey in
    let* i := lift (index u face) in
    let* j := lift (index v face) in
    if decide (i + 1 = j)%nat then raise ValueError
    else
      let fg := if decide (i < j)%nat
                then (slice i (j + 1) face, drop j face ++ take (i + 1) face)
                else (drop i face ++ take (j + 1) face, slice j (i + 1) face) in
      let* f := add_face fg.1 in
      let* g := add_face fg.2 in
      face_del fkey >>>
      ret (f, g).

End Editor.

(** * Traversal and connectivity ([components.py]) *)

(** ** The [result] monad for read-only code *)

#[global] Instance result_ret : MRet result := λ _ a, Ok a.
#[global] Instance result_bind : MBind result := λ _ _ k r,
  match r with
  | Ok a => k a
  | Raise e => Raise e
  end.

Definition lookup_or_raise {A} (e : exn) (o : option A) : result A :=
  match o with
  | Some a => Ok a
  | None => Raise e
  end.

(** An arbitrary member of a set ([set.pop()], [next(iter(...))]): the
    member at an oracle-chosen position of the set's enumeration.  Nothing
    is assumed about the oracle. *)
Definition pick (choose : gset Z → nat) (s : gset Z) : option Z :=
  elements s !! (choose s `mod` length (elements s))%nat.

(** Modelled from the spec: [compas.topology.breadth_first_traverse] is not
    part of the sources at hand.  The spec describes the standard
    traversal with a first-in-first-out frontier and a visited set that
    prevents revisits, returning the visited set.  Each iteration of its
    [while] loop consumes one unit of [fuel]; [None] stands for a loop that
    is cut off. *)
Definition visit_nbr (acc : list Z * gset Z) (nbr : Z) : list Z * gset Z :=
  if decide (nbr ∈ acc.2) then acc else (acc.1 ++ [nbr], {[nbr]} ∪ acc.2).

(** Modelled from the spec: the [while] loop of
    [breadth_first_traverse] over the frontier [tovisit]. *)
Fixpoint bfs_loop (fuel : nat) (adjacency : gmap Z (list Z))
    (tovisit : list Z) (visited : gset Z) : option (result (gset Z)) :=
  match tovisit with
  | [] => Some (Ok visited)
  | node :: rest =>
      match fuel with
      | O => None
      | S fuel' =>
          match adjacency !! node with
          | None => Some (Raise KeyError)
          | Some nbrs =>
              let acc := foldl visit_nbr (rest, visited) nbrs in
              bfs_loop fuel' adjacency acc.1 acc.2
          end
      end
  end.

(** Modelled from the spec: [breadth_first_traverse], started with the
    root in the frontier and in the visited set.  One unit of fuel per
    vertex, and one to spare, is enough for the loop to end. *)
Definition breadth_first_traverse (adjacency : gmap Z (list Z)) (root : Z)
    : option (result (gset Z)) :=
  bfs_loop (S (size adjacency)) adjacency [root] {[root]}.

Section Components.

Variable choose : gset Z → nat.

Fixpoint components_loop (fuel : nat) (adjacency : gmap Z (list Z))
    (tovisit : gset Z) (components : list (list Z))
    : option (result (list (list Z))) :=
  if decide (tovisit = ∅) then Some (Ok components)
  else
    match fuel with
    | O => None
    | S fuel' =>
        match pick choose tovisit with
        | None => Some (Raise KeyError)
        | Some root =>
            match breadth_first_traverse adjacency root with
            | None => None
            | Some (Raise e) => Some (Raise e)
            | Some (Ok visited) =>
                components_loop fuel' adjacency
                  ((tovisit ∖ {[root]}) ∖ visited)
                  (components ++ [elements visited])
            end
        end
    end.

Definition connected_components (adjacency : gmap Z (list Z))
    : option (result (list (list Z))) :=
  components_loop (size adjacency) adjacency (dom adjacency) [].

End Components.

(** Modelled from the spec: the [adjacency] view, [get_any_vertex] and
    [number_of_vertices] of the mesh and network classes are not part of
    the sources at hand.  The adjacency view lists, for each vertex, the
    neighbours recorded in its row of the half-edge index; a network keeps
    the same view over its own tables. *)
Definition mesh_adjacency (m : Mesh) : gmap Z (list Z) :=
  (λ row : gmap Z (option Z), (map_to_list row).*1) <$> halfedge m.

(** Modelled from the spec: a network, as far as [network_is_connected]
    looks at it. *)
Record Network : Type := mkNetwork {
  network_vertex : gmap Z xyz;
  network_adjacency : gmap Z (list Z)
}.

(** Modelled from the spec: [number_of_vertices], the size of the vertex
    table. *)
Definition number_of_vertices (m : Mesh) : nat := size (vertex m).

(** Modelled from the spec: [number_of_vertices] of a network. *)
Definition network_number_of_vertices (n : Network) : nat := size (network_vertex n).

Section Connectivity.

Variable choose : gset Z → nat.

(** Modelled from the spec: [get_any_vertex], an arbitrary key of the
    vertex table. *)
Definition mesh_get_any_vertex (m : Mesh) : result Z :=
  lookup_or_raise KeyError (pick choose (dom (vertex m))).

(** Modelled from the spec: [get_any_vertex] of a network. *)
Definition network_get_any_vertex (n : Network) : result Z :=
  lookup_or_raise KeyError (pick choose (dom (network_vertex n))).

Definition mesh_is_connected (mesh : Mesh) : option (result bool) :=
  if decide (vertex mesh = ∅) then Some (Ok false)
  else
    match mesh_get_any_vertex mesh with
    | Raise e => Some (Raise e)
    | Ok root =>
        match breadth_first_traverse (mesh_adjacency mesh) root with
        | None => None
        | Some (Raise e) => Some (Raise e)
        | Some (Ok nodes) =>
            Some (Ok (bool_decide (size nodes = number_of_vertices mesh)))
        end
    end.

Definition network_is_connected (network : Network) : option (result bool) :=
  if decide (network_vertex network = ∅) then Some (Ok false)
  else
    match network_get_any_vertex network with
    | Raise e => Some (Raise e)
    | Ok root =>
        match breadth_first_traverse (network_adjacency network) root with
        | None => None
        | Some (Raise e) => Some (Raise e)
        | Some (Ok nodes) =>
            Some (Ok (bool_decide (size nodes = network_number_of_vertices network)))
        end
    end.

End Connectivity.

(** * Operator assembly ([matrices.py]) *)

(** The coordinate-list triple handed to [coo_matrix]. *)
Record coo : Type := COO { data : list Q; rows : list nat; cols : list nat }.

Definition coo_append (d : Q) (r c : nat) (A : coo) : coo :=
  COO (data A ++ [d]) (rows A ++ [r]) (cols A ++ [c]).

(** Python's [a / b] on floats, as far as the exception goes: a zero
    divisor raises [ZeroDivisionError].  The quotient is the exact
    rational, not the rounded double of the source. *)
Definition float_div (a b : Q) : result Q :=
  if Qeq_bool b 0 then Raise ZeroDivisionError else Ok (a / b)%Q.

(** Modelled from the spec: [Mesh.vertices], [Mesh.key_index],
    [Mesh.vertex_neighbors] and [Mesh.edges] are not part of the sources at
    hand.  [key_index] enumerates the vertices
    in their current iteration order with 0-based indices;
    [vertex_neighbors] reads the row of the half-edge index; [edges] yields
    each undirected edge of the index once. *)
Definition vertices (m : Mesh) : list Z := (map_to_list (vertex m)).*1.

(** Modelled from the spec: [Mesh.key_index], the 0-based position of each
    vertex in the iteration order. *)
Definition key_index (m : Mesh) : gmap Z nat :=
  list_to_map (zip (vertices m) (seq 0 (length (vertices m)))).

(** Modelled from the spec: [Mesh.vertex_neighbors], the keys of the
    vertex's row of the half-edge index. *)
Definition vertex_neighbors (m : Mesh) (key : Z) : result (list Z) :=
  row ← lookup_or_raise KeyError (halfedge m !! key);
  Ok ((map_to_list (row : gmap Z (option Z))).*1).

(** Modelled from the spec: [v in self.halfedge[u]], for [Mesh.edges]. *)
Definition has_halfedge (m : Mesh) (u v : Z) : bool :=
  match halfedge m !! u with
  | Some row => bool_decide (is_Some (row !! v))
  | None => false
  end.

(** Modelled from the spec: [Mesh.edges], each undirected edge of the
    half-edge index once. *)
Definition edges (m : Mesh) : list (Z * Z) :=
  '(u, row) ← map_to_list (halfedge m);
  '(v, _) ← map_to_list (row : gmap Z (option Z));
  if bool_decide (u < v) || negb (has_halfedge m v u) then [(u, v)] else [].

(** ** [mesh_laplacian_matrix] *)

Fixpoint laplacian_row (ki : gmap Z nat) (d : Q) (r : nat) (nbrs : list Z) (A : coo)
    : result coo :=
  match nbrs with
  | [] => Ok A
  | nbr :: rest =>
      c ← lookup_or_raise KeyError (ki !! nbr);
      laplacian_row ki d r rest (coo_append d r c A)
  end.

Fixpoint laplacian_rows (m : Mesh) (ki : gmap Z nat) (keys : list Z) (A : coo)
    : result coo :=
  match keys with
  | [] => Ok A
  | key :: rest =>
      r ← lookup_or_raise KeyError (ki !! key);
      let A1 := coo_append 1 r r A in
      nbrs ← vertex_neighbors m key;
      let w := length nbrs in
      d ← float_div (- 1) (inject_Z (Z.of_nat w));
      A2 ← laplacian_row ki d r nbrs A1;
      laplacian_rows m ki rest A2
  end.

(** The loop of [mesh_laplacian_matrix] that fills [data], [rows] and
    [cols].  The two calls that follow it in the source,
    [coo_matrix((data, (rows, cols)))] and [_return_matrix(L, rtype)], are
    outside this model: [Ok] means that the loop has run to its end, not
    that a matrix has been returned. *)
Definition mesh_laplacian_matrix (mesh : Mesh) : result coo :=
  laplacian_rows mesh (key_index mesh) (vertices mesh) (COO [] [] []).

(** ** [trimesh_cotangent_laplacian_matrix] *)

(** A positional argument of a Python call: the callee binds its
    parameters from the argument list, and a list of the wrong length is a
    [TypeError] raised before the body runs. *)
Inductive pyval : Type :=
  | PMesh (m : Mesh)
  | PKey (k : Z).

Definition as_mesh (x : pyval) : result Mesh :=
  match x with
  | PMesh m => Ok m
  | PKey _ => Raise AttributeError
  end.

Definition as_key (x : pyval) : result Z :=
  match x with
  | PKey k => Ok k
  | PMesh _ => Raise TypeError
  end.

Fixpoint sumQ (l : list Q) : Q :=
  match l with
  | [] => 0
  | x :: l' => x + sumQ l'
  end.

(** Entry [(i, j)] of the matrix a coordinate list denotes: duplicates add
    up. *)
Fixpoint coo_entries (i j : nat) (d : list Q) (r c : list nat) : list Q :=
  match d, r, c with
  | x :: d', i' :: r', j' :: c' =>
      if bool_decide (i' = i ∧ j' = j) then x :: coo_entries i j d' r' c'
      else coo_entries i j d' r' c'
  | _, _, _ => []
  end.

Definition coo_entry (A : coo) (i j : nat) : Q :=
  sumQ (coo_entries i j (data A) (rows A) (cols A)).

Definition row_sum (n : nat) (entry : nat → nat → Q) (i : nat) : Q :=
  sumQ (entry i <$> seq 0 n).

Definition dense (n : nat) (entry : nat → nat → Q) : list (list Q) :=
  (λ i, entry i <$> seq 0 n) <$> seq 0 n.

Section Cotangent.

(** [compas.geometry] and [Mesh.edge_vector] are outside the sources at
    hand and are taken as they come. *)
Variable dot_vectors : xyz → xyz → Q.
Variable cross_vectors : xyz → xyz → xyz.
Variable length_vector : xyz → Q.
Variable edge_vector : Mesh → Z → Z → result xyz.

Definition trimesh_edge_cotangent (args : list pyval) : result Q :=
  match args with
  | [mesh; u; v] =>
      mesh ← as_mesh mesh;
      u ← as_key u;
      v ← as_key v;
      row ← lookup_or_raise KeyError (halfedge mesh !! u);
      fkey ← lookup_or_raise KeyError ((row : gmap Z (option Z)) !! v);
      match fkey with
      | None => Ok (0 : Q)
      | Some fkey =>
          l ← lookup_or_raise KeyError (face mesh !! fkey);
          w ← getitem l v;
          wu ← edge_vector mesh w u;
          wv ← edge_vector mesh w v;
          float_div (dot_vectors wu wv) (length_vector (cross_vectors wu wv))
      end
  | _ => Raise TypeError
  end.

Definition trimesh_edge_cotangents (mesh : Mesh) (u v : Z) : result (Q * Q) :=
  a ← trimesh_edge_cotangent [PKey u; PKey v];
  b ← trimesh_edge_cotangent [PKey v; PKey u];
  Ok (a, b).

Fixpoint cotangent_entries (mesh : Mesh) (ki : gmap Z nat) (es : list (Z * Z)) (A : coo)
    : result coo :=
  match es with
  | [] => Ok A
  | (u, v) :: rest =>
      ab ← trimesh_edge_cotangents mesh u v;
      i ← lookup_or_raise KeyError (ki !! u);
      j ← lookup_or_raise KeyError (ki !! v);
      let A1 := coo_append ((1 # 2) * ab.1)%Q i j A in
      let A2 := coo_append ((1 # 2) * ab.2)%Q j i A1 in
      cotangent_entries mesh ki rest A2
  end.

Definition trimesh_cotangent_laplacian_matrix (mesh : Mesh) : result (list (list Q)) :=
  let ki := key_index mesh in
  let n := number_of_vertices mesh in
  A ← cotangent_entries mesh ki (edges mesh) (COO [] [] []);
  let L := coo_entry A in
  Ok (dense n (λ i j, if decide (i = j) then (L i j - row_sum n L i)%Q else L i j)).

End Cotangent.

(** ** The index lists handed to the matrix builders *)

(** Modelled from the spec: [Mesh.faces], the keys of the face table in
    their iteration order. *)
Definition faces (m : Mesh) : list Z := (map_to_list (face m)).*1.

(** Modelled from the spec: [Mesh.face_vertices], the loop stored under
    the face key. *)
Definition face_vertices (m : Mesh) (fkey : Z) : result (list Z) :=
  lookup_or_raise KeyError (face m !! fkey).

(** [enumerate(l)] *)
Definition enumerate {A} (l : list A) : list (nat * A) := zip (seq 0 (length l)) l.

Section Builders.

(** The module calls [adjacency_matrix], [degree_matrix],
    [connectivity_matrix] and [face_matrix] without defining or importing
    them: what a call does is up to what the name is bound to when the
    [return] statement is reached.  Looking a name up gives the builder or
    raises, and the builder may raise in turn.  A list comprehension is
    [mapM]: its elements are evaluated from left to right and the first
    exception ends it. *)
Context {R Rtype : Type}.
Variable adjacency_matrix : result (list (list nat) → Rtype → result R).
Variable degree_matrix : result (list (list nat) → Rtype → result R).
Variable connectivity_matrix : result (list (nat * nat) → Rtype → result R).
Variable face_matrix : result (list (list nat) → Rtype → result R).

Definition mesh_adjacency_matrix (mesh : Mesh) (rtype : Rtype) : result R :=
  let ki := key_index mesh in
  adjacency ← mapM (λ key, nbrs ← vertex_neighbors mesh key;
                           mapM (λ nbr, lookup_or_raise KeyError (ki !! nbr)) nbrs)
                   (vertices mesh);
  build ← adjacency_matrix;
  build adjacency rtype.

Definition mesh_connectivity_matrix (mesh : Mesh) (rtype : Rtype) : result R :=
  let ki := key_index mesh in
  edges ← mapM (λ uv : Z * Z, i ← lookup_or_raise KeyError (ki !! uv.1);
                              j ← lookup_or_raise KeyError (ki !! uv.2);
                              Ok (i, j))
               (edges mesh);
  build ← connectivity_matrix;
  build edges rtype.

Definition mesh_degree_matrix (mesh : Mesh) (rtype : Rtype) : result R :=
  let ki := key_index mesh in
  adjacency ← mapM (λ key, nbrs ← vertex_neighbors mesh key;
                           mapM (λ nbr, lookup_or_raise KeyError (ki !! nbr)) nbrs)
                   (vertices mesh);
  build ← degree_matrix;
  build adjacency rtype.

(** [key_index = {key: index for index, key in enumerate(mesh.vertices())}]
    is built by the function itself. *)
Definition mesh_face_matrix (mesh : Mesh) (rtype : Rtype) : result R :=
  let ki : gmap Z nat :=
    foldl (λ d (ik : nat * Z), <[ik.2 := ik.1]> d) ∅ (enumerate (vertices mesh)) in
  fvs ← mapM (λ fkey, vs ← face_vertices mesh fkey;
                      mapM (λ key, lookup_or_raise KeyError (ki !! key)) vs)
             (faces mesh);
  build ← face_matrix;
  build fvs rtype.

End Builders.

(** * Vocabulary of the statements *)

(** ** The half-edge index and the registry *)

(** [halfedge[x][y]] as a partial function: [None] when the entry is
    absent, [Some None] for a half-edge without face. *)
Definition he (m : Mesh) (x y : Z) : option (option Z) :=
  halfedge m !! x ≫= λ row, row !! y.

(** The registry has handed out every vertex key in use. *)
Definition keys_bounded (m : Mesh) : Prop :=
  set_Forall (λ k, k ≤ max_int_key m) (dom (vertex m) ∪ dom (halfedge m)).

(** The registry has handed out every face key in use. *)
Definition fkeys_bounded (m : Mesh) : Prop :=
  set_Forall (λ f, f ≤ max_int_fkey m) (dom (face m)).

(** A step that leaves everything but the half-edge index alone. *)
Definition same_tables (m m' : Mesh) : Prop :=
  vertex m' = vertex m ∧ face m' = face m ∧
  max_int_key m' = max_int_key m ∧ max_int_fkey m' = max_int_fkey m.

(** ** Face loops *)

(** [w] is the entry right before [x] somewhere in [l]. *)
Definition immediately_before (w x : Z) (l : list Z) : Prop :=
  ∃ i : nat, l !! i = Some w ∧ l !! S i = Some x.

(** [y] follows [x] in the cyclic loop [l], the first entry following the
    last. *)
Definition cyclic_next (l : list Z) (x y : Z) : Prop :=
  ∃ i : nat, l !! i = Some x ∧ l !! (S i `mod` length l)%nat = Some y.



(** ** The two sides of a triangle edge split *)






(** ** Adjacency *)

Definition adj_edge (adjacency : gmap Z (list Z)) (x y : Z) : Prop :=
  ∃ nbrs, adjacency !! x = Some nbrs ∧ y ∈ nbrs.

Definition reach (adjacency : gmap Z (list Z)) : Z → Z → Prop :=
  rtc (adj_edge adjacency).

Definition symmetric (adjacency : gmap Z (list Z)) : Prop :=
  ∀ x y, adj_edge adjacency x y → adj_edge adjacency y x.

(** Every neighbour is itself a key of the adjacency. *)
Definition closed (adjacency : gmap Z (list Z)) : Prop :=
  ∀ x y, adj_edge adjacency x y → y ∈ dom adjacency.

(** [c] lists, without repetition, the vertices that can be reached from
    one vertex of the adjacency. *)
Definition is_component (adjacency : gmap Z (list Z)) (c : list Z) : Prop :=
  ∃ r, r ∈ dom adjacency ∧ NoDup c ∧ ∀ x, x ∈ c ↔ reach adjacency r x.

Definition connected (adjacency : gmap Z (list Z)) : Prop :=
  ∀ x y, x ∈ dom adjacency → y ∈ dom adjacency → reach adjacency x y.

(** A boolean check for symmetry of a concrete adjacency. *)
Definition symmetricb (adjacency : gmap Z (list Z)) : bool :=
  forallb (λ xn : Z * list Z,
             forallb (λ y, match adjacency !! y with
                           | Some l => bool_decide (xn.1 ∈ l)
                           | None => false
                           end) xn.2)
          (map_to_list adjacency).

(** ** Example meshes *)

(** A single quadrilateral [[0; 1; 2; 3]] with its boundary half-edges. *)
Definition quad_mesh : Mesh :=
  mkMesh (list_to_map [(0, XYZ 0 0 0); (1, XYZ 1 0 0); (2, XYZ 1 1 0); (3, XYZ 0 1 0)])
         {[ 0 := [0; 1; 2; 3] ]}
         (list_to_map [(0, list_to_map [(1, Some 0); (3, None)]);
                       (1, list_to_map [(2, Some 0); (0, None)]);
                       (2, list_to_map [(3, Some 0); (1, None)]);
                       (3, list_to_map [(0, Some 0); (2, None)])])
         3 0.

(** Two triangles [[0; 1; 2]] and [[0; 2; 3]] sharing the edge [(0, 2)]. *)
Definition two_triangles : Mesh :=
  mkMesh (list_to_map [(0, XYZ 0 0 0); (1, XYZ 1 0 0); (2, XYZ 1 1 0); (3, XYZ 0 1 0)])
         (list_to_map [(0, [0; 1; 2]); (1, [0; 2; 3])])
         (list_to_map [(0, list_to_map [(1, Some 0); (2, Some 1); (3, None)]);
                       (1, list_to_map [(2, Some 0); (0, None)]);
                       (2, list_to_map [(0, Some 0); (3, Some 1); (1, None)]);
                       (3, list_to_map [(0, Some 1); (2, None)])])
         3 1.

(** The triangle [[0; 1; 2]] and a vertex [3] without neighbours. *)
Definition triangle_and_point : Mesh :=
  mkMesh (list_to_map [(0, XYZ 0 0 0); (1, XYZ 1 0 0); (2, XYZ 1 1 0); (3, XYZ 5 5 0)])
         {[ 0 := [0; 1; 2] ]}
         (list_to_map [(0, list_to_map [(1, Some 0); (2, None)]);
                       (1, list_to_map [(2, Some 0); (0, None)]);
                       (2, list_to_map [(0, Some 0); (1, None)]);
                       (3, ∅)])
         3 0.

(** The adjacency of two triangles without a common vertex. *)
Definition disjoint_triangles : gmap Z (list Z) :=
  list_to_map [(0, [1; 2]); (1, [2; 0]); (2, [0; 1]);
               (3, [4; 5]); (4, [5; 3]); (5, [3; 4])].

(** The network with the tables of the quadrilateral mesh. *)
Definition quad_network : Network :=
  mkNetwork (vertex quad_mesh) (mesh_adjacency quad_mesh).

(** ** Edges that can be split *)

(** What [mesh_split_edge] relies on when it splits [(u, v)]: the keys in
    use have been handed out by the registry, both half-edges are in the
    index, both end points have a position, and a face on either side has
    the far end of its half-edge in its loop. *)
Definition splittable (m : Mesh) (u v : Z) (fkey_uv fkey_vu : option Z) : Prop :=
  keys_bounded m ∧ u ≠ v ∧
  he m u v = Some fkey_uv ∧ he m v u = Some fkey_vu ∧
  is_Some (vertex m !! u) ∧ is_Some (vertex m !! v) ∧
  (∀ f, fkey_uv = Some f → ∃ loop, face m !! f = Some loop ∧ v ∈ loop) ∧
  (∀ f, fkey_vu = Some f → ∃ loop, face m !! f = Some loop ∧ u ∈ loop).

(** The boundary may be split, or the edge has a face on both sides. *)
Definition split_allowed (allow_boundary : bool) (fkey_uv fkey_vu : option Z) : Prop :=
  allow_boundary = true ∨ (is_Some fkey_uv ∧ is_Some fkey_vu).

(** [loop] with [w] put in front of the first [x], if there is one. *)
Definition inserted_before (x w : Z) (loop : list Z) : list Z :=
  match index x loop with
  | Ok j => list_insert_at j w loop
  | Raise _ => loop
  end.

(** The loop of face [f] after the edge [(u, v)] with the faces [fkey_uv]
    and [fkey_vu] on its sides has been split at [w]. *)
Definition split_loop (fkey_uv fkey_vu : option Z) (u v w f : Z) (loop : list Z) : list Z :=
  let loop1 := if decide (fkey_uv = Some f) then inserted_before v w loop else loop in
  if decide (fkey_vu = Some f) then inserted_before u w loop1 else loop1.

(** The half-edge index after that split. *)
Definition split_he (m : Mesh) (u v w : Z) (fkey_uv fkey_vu : option Z) (x y : Z) :
    option (option Z) :=
  if decide ((x, y) = (u, v) ∨ (x, y) = (v, u)) then None
  else if decide ((x, y) = (u, w) ∨ (x, y) = (w, v)) then Some fkey_uv
  else if decide ((x, y) = (v, w) ∨ (x, y) = (w, u)) then Some fkey_vu
  else he m x y.




(** ** The policy of [add_face] *)




(** * Properties of the editor *)

Lemma bind_Ok {A B} (c : M A) (k : A → M B) m a m' :
  c m = (Ok a, m') → bind c k m = k a m'.
Proof. unfold bind. by intros ->. Qed.

Ltac norm_state :=
  unfold set_halfedge, set_face, set_vertex, set_max_int_key, set_max_int_fkey;
  cbn [vertex face halfedge max_int_key max_int_fkey].

Lemma split_parameter_ok (t : Q) :
  (0 < t)%Q → (t < 1)%Q → Qle_bool t 0 = false ∧ Qle_bool 1 t = false.
Proof.
  intros H0 H1. split; apply not_true_is_false; rewrite Qle_bool_iff;
    by apply Qlt_not_le.
Qed.

Lemma halfedge_get_Ok m u v row f :
  halfedge m !! u = Some row → row !! v = Some f →
  halfedge_get u v m = (Ok f, m).
Proof. unfold halfedge_get. by intros -> ->. Qed.

(** C3.  On a boundary edge with [allow_boundary = False] both edge splits
    return [None] without raising and leave the mesh as it was. *)
Theorem split_edge_boundary_skip (policy : nonmanifold_policy) (m : Mesh)
    (u v : Z) (t : Q) (row_u row_v : gmap Z (option Z)) (fkey_uv fkey_vu : option Z) :
  (0 < t)%Q → (t < 1)%Q →
  halfedge m !! u = Some row_u → row_u !! v = Some fkey_uv →
  halfedge m !! v = Some row_v → row_v !! u = Some fkey_vu →
  fkey_uv = None ∨ fkey_vu = None →
  mesh_split_edge u v t false m = (Ok None, m) ∧
  trimesh_split_edge policy u v t false m = (Ok None, m).
Proof.
  intros H0 H1 Hu Huv Hv Hvu Hb.
  destruct (split_parameter_ok t H0 H1) as [E0 E1].
  assert (Hskip : is_none fkey_uv || is_none fkey_vu = true)
    by (destruct Hb as [-> | ->]; [done | by rewrite orb_true_r]).
  unfold mesh_split_edge, trimesh_split_edge. rewrite E0, E1.
  rewrite !(bind_Ok _ _ _ _ _ (halfedge_get_Ok _ _ _ _ _ Hu Huv)).
  rewrite !(bind_Ok _ _ _ _ _ (halfedge_get_Ok _ _ _ _ _ Hv Hvu)).
  by rewrite Hskip.
Qed.

(** ** Lists: [index] and [insert] *)

Lemma index_elem (x : Z) (l : list Z) : x ∈ l → ∃ j, index x l = Ok j.
Proof.
  induction l as [|y l IH]; [by intros ?%elem_of_nil|].
  intros Hx. simpl. destruct (decide (y = x)) as [|Hne]; [by eexists|].
  apply elem_of_cons in Hx as [->|Hx]; [done|].
  destruct (IH Hx) as [j ->]. by eexists.
Qed.

Lemma index_Ok (x : Z) (l : list Z) (j : nat) :
  index x l = Ok j →
  l !! j = Some x ∧ (∀ i, (i < j)%nat → l !! i ≠ Some x).
Proof.
  revert j. induction l as [|y l IH]; intros j; simpl; [done|].
  destruct (decide (y = x)) as [->|Hne].
  - intros [= <-]. split; [done|]. intros i Hi. lia.
  - destruct (index x l) as [n|e] eqn:E; [|done]. intros [= <-].
    destruct (IH n eq_refl) as [H1 H2]. split; [done|].
    intros [|i] Hi; simpl; [congruence|]. apply H2. lia.
Qed.

Lemma index_split (x : Z) (l : list Z) (j : nat) :
  index x l = Ok j →
  l = take j l ++ x :: drop (S j) l ∧ (x ∉ take j l) ∧ length (take j l) = j.
Proof.
  intros H. destruct (index_Ok _ _ _ H) as [Hj Hlt].
  pose proof (lookup_lt_Some _ _ _ Hj) as Hlen.
  split; [|split].
  - rewrite <- (take_drop_middle l j x Hj) at 1. done.
  - intros [i Hi]%list_elem_of_lookup.
    pose proof (lookup_lt_Some _ _ _ Hi) as Hi'. rewrite length_take in Hi'.
    rewrite lookup_take_lt in Hi by lia. apply (Hlt i); [lia|done].
  - rewrite length_take. lia.
Qed.

Lemma list_insert_at_split (x w : Z) (l : list Z) (j : nat) :
  index x l = Ok j →
  list_insert_at j w l = take j l ++ w :: x :: drop (S j) l.
Proof.
  intros H. destruct (index_Ok _ _ _ H) as [Hj _].
  unfold list_insert_at. by rewrite (drop_S l x j Hj).
Qed.

Lemma list_insert_at_lookup_lt (w : Z) (l : list Z) (i j : nat) :
  (i < j)%nat → (j ≤ length l)%nat → list_insert_at j w l !! i = l !! i.
Proof.
  intros Hi Hj. unfold list_insert_at.
  rewrite lookup_app_l by (rewrite length_take; lia).
  by rewrite lookup_take_lt.
Qed.

Lemma list_insert_at_lookup_eq (w : Z) (l : list Z) (j : nat) :
  (j ≤ length l)%nat → list_insert_at j w l !! j = Some w.
Proof.
  intros Hj. unfold list_insert_at.
  rewrite lookup_app_r by (rewrite length_take; lia).
  rewrite length_take. by replace (j - j `min` length l)%nat with 0%nat by lia.
Qed.

Lemma list_insert_at_lookup_gt (w : Z) (l : list Z) (i j : nat) :
  (j ≤ i)%nat → (j ≤ length l)%nat → list_insert_at j w l !! S i = l !! i.
Proof.
  intros Hi Hj. unfold list_insert_at.
  rewrite lookup_app_r by (rewrite length_take; lia).
  rewrite length_take.
  replace (S i - j `min` length l)%nat with (S (i - j)) by lia.
  simpl. rewrite lookup_drop. f_equal. lia.
Qed.

Lemma immediately_before_insert (w x : Z) (l : list Z) (j : nat) :
  index x l = Ok j → immediately_before w x (list_insert_at j w l).
Proof.
  intros H. destruct (index_Ok _ _ _ H) as [Hj _].
  pose proof (lookup_lt_Some _ _ _ Hj) as Hlen.
  exists j. split.
  - apply list_insert_at_lookup_eq. lia.
  - rewrite list_insert_at_lookup_gt by lia. done.
Qed.

Lemma immediately_before_preserved (w v u z : Z) (l : list Z) (j : nat) :
  u ≠ v → index u l = Ok j → immediately_before w v l →
  immediately_before w v (list_insert_at j z l).
Proof.
  intros Hne H [i [Hw Hv]]. destruct (index_Ok _ _ _ H) as [Hj _].
  pose proof (lookup_lt_Some _ _ _ Hj) as Hlen.
  destruct (decide (S i < j)%nat) as [Hlt|Hge].
  - exists i. by rewrite !list_insert_at_lookup_lt by lia.
  - destruct (decide (S i = j)) as [<-|Hne']; [congruence|].
    exists (S i). by rewrite !list_insert_at_lookup_gt by lia.
Qed.

(** ** Primitive steps *)

Lemma edge_point_Ok m u v t a b :
  vertex m !! u = Some a → vertex m !! v = Some b →
  edge_point u v t m = (Ok (interpolate a b t), m).
Proof.
  intros Ha Hb. unfold edge_point, bind, vertex_coordinates, ret.
  by rewrite Ha, Hb.
Qed.

Lemma add_vertex_fresh m p :
  halfedge m !! (max_int_key m + 1) = None →
  add_vertex p m =
    (Ok (max_int_key m + 1),
     mkMesh (<[max_int_key m + 1 := p]> (vertex m)) (face m)
            (<[max_int_key m + 1 := ∅]> (halfedge m))
            (max_int_key m + 1) (max_int_fkey m)).
Proof. intros H. unfold add_vertex. simpl. by rewrite H. Qed.

Lemma halfedge_set_Ok m u v f row :
  halfedge m !! u = Some row →
  halfedge_set u v f m = (Ok tt, set_halfedge (insert u (<[v := f]> row)) m).
Proof. unfold halfedge_set. by intros ->. Qed.

Lemma halfedge_del_Ok m u v f row :
  halfedge m !! u = Some row → row !! v = Some f →
  halfedge_del u v m = (Ok tt, set_halfedge (insert u (delete v row)) m).
Proof. unfold halfedge_del. by intros -> ->. Qed.

Lemma face_get_Ok m fkey l :
  face m !! fkey = Some l → face_get fkey m = (Ok l, m).
Proof. unfold face_get. by intros ->. Qed.


Lemma face_insert_before_Ok m fkey x w l j :
  face m !! fkey = Some l → index x l = Ok j →
  face_insert_before fkey x w m =
    (Ok tt, set_face (insert fkey (list_insert_at j w l)) m).
Proof.
  intros Hl Hj. unfold face_insert_before.
  rewrite (bind_Ok _ _ _ _ _ (face_get_Ok _ _ _ Hl)).
  unfold bind, lift. by rewrite Hj.
Qed.

Lemma keys_bounded_fresh m :
  keys_bounded m →
  vertex m !! (max_int_key m + 1) = None ∧ halfedge m !! (max_int_key m + 1) = None.
Proof.
  intros Hb. split; apply not_elem_of_dom; intros Hin;
    (assert (max_int_key m + 1 ≤ max_int_key m) by (apply Hb; set_solver)); lia.
Qed.

Lemma keys_bounded_ne m k row :
  keys_bounded m → halfedge m !! k = Some row → k ≠ max_int_key m + 1.
Proof.
  intros Hb Hk ->. destruct (keys_bounded_fresh m Hb) as [_ H]. congruence.
Qed.

Lemma split_edge_run (m : Mesh) (u v : Z) (t : Q) (allow : bool)
    (row_u row_v : gmap Z (option Z)) (fuv fvu : Z) (a b : xyz) (Luv Lvu : list Z) :
  (0 < t)%Q → (t < 1)%Q → keys_bounded m → u ≠ v →
  halfedge m !! u = Some row_u → row_u !! v = Some (Some fuv) →
  halfedge m !! v = Some row_v → row_v !! u = Some (Some fvu) →
  vertex m !! u = Some a → vertex m !! v = Some b →
  face m !! fuv = Some Luv → v ∈ Luv →
  face m !! fvu = Some Lvu → u ∈ Lvu →
  let w := max_int_key m + 1 in
  ∃ (j i : nat) (L : list Z),
    index v Luv = Ok j ∧
    <[fuv := list_insert_at j w Luv]> (face m) !! fvu = Some L ∧
    index u L = Ok i ∧
    mesh_split_edge u v t allow m =
      (Ok (Some w),
       mkMesh (<[w := interpolate a b t]> (vertex m))
              (<[fvu := list_insert_at i w L]> (<[fuv := list_insert_at j w Luv]> (face m)))
              (<[v := delete u (<[w := Some fvu]> row_v)]>
                (<[w := <[u := Some fvu]> {[v := Some fuv]}]>
                  (<[u := delete v (<[w := Some fuv]> row_u)]> (halfedge m))))
              w (max_int_fkey m)).
Proof.
  intros H0 H1 Hb Huv Hu Hruv Hv Hrvu Ha Hbv HLuv HvL HLvu HuL w.
  destruct (split_parameter_ok t H0 H1) as [E0 E1].
  destruct (keys_bounded_fresh m Hb) as [Hwv Hwh].
  pose proof (keys_bounded_ne _ _ _ Hb Hu) as Huw.
  pose proof (keys_bounded_ne _ _ _ Hb Hv) as Hvw.
  fold w in Hwv, Hwh, Huw, Hvw.
  destruct (index_elem v Luv HvL) as [j Hj].
  assert (HL : ∃ L, <[fuv := list_insert_at j w Luv]> (face m) !! fvu = Some L ∧ u ∈ L).
  { destruct (decide (fuv = fvu)) as [->|Hne].
    - rewrite lookup_insert_eq. eexists; split; [done|].
      assert (Luv = Lvu) as -> by congruence.
      unfold list_insert_at. rewrite <- (take_drop j Lvu) in HuL.
      apply elem_of_app in HuL as [?|?]; apply elem_of_app; [by left|].
      right. by apply elem_of_cons; right.
    - rewrite lookup_insert_ne by done. eauto. }
  destruct HL as (L & HL & HuL').
  destruct (index_elem u L HuL') as [i Hi].
  exists j, i, L. split; [done|]. split; [done|]. split; [done|].
  unfold mesh_split_edge. rewrite E0, E1.
  rewrite (bind_Ok _ _ _ _ _ (halfedge_get_Ok _ _ _ _ _ Hu Hruv)).
  rewrite (bind_Ok _ _ _ _ _ (halfedge_get_Ok _ _ _ _ _ Hv Hrvu)).
  rewrite andb_false_r.
  rewrite (bind_Ok _ _ _ _ _ (edge_point_Ok _ _ _ t _ _ Ha Hbv)).
  rewrite (bind_Ok _ _ _ _ _ (add_vertex_fresh _ _ Hwh)). fold w.
  erewrite bind_Ok; last first.
  { apply halfedge_set_Ok. simpl. rewrite lookup_insert_ne by done. exact Hu. }
  norm_state.
  erewrite bind_Ok; last first.
  { apply halfedge_set_Ok. simpl. rewrite lookup_insert_ne by done.
    apply lookup_insert_eq. }
  norm_state.
  erewrite bind_Ok; last first.
  { eapply halfedge_del_Ok; simpl.
    - rewrite lookup_insert_ne by done. apply lookup_insert_eq.
    - rewrite lookup_insert_ne by done. exact Hruv. }
  norm_state.
  erewrite bind_Ok; last first.
  { eapply face_insert_before_Ok; simpl; [exact HLuv | exact Hj]. }
  norm_state.
  erewrite bind_Ok; last first.
  { apply halfedge_set_Ok. simpl. rewrite !lookup_insert_ne by done. exact Hv. }
  norm_state.
  erewrite bind_Ok; last first.
  { apply halfedge_set_Ok. simpl. rewrite !lookup_insert_ne by done.
    apply lookup_insert_eq. }
  norm_state.
  erewrite bind_Ok; last first.
  { eapply halfedge_del_Ok; simpl.
    - rewrite lookup_insert_ne by done. apply lookup_insert_eq.
    - rewrite lookup_insert_ne by done. exact Hrvu. }
  norm_state.
  erewrite bind_Ok; last first.
  { eapply face_insert_before_Ok; simpl; [exact HL | exact Hi]. }
  norm_state.
  unfold ret. f_equal. f_equal.
  apply map_eq. intros k. rewrite !lookup_insert.
  repeat case_decide; try congruence. by rewrite insert_empty.
Qed.

(** C1.  Splitting an interior edge [(u, v)] at [0 < t < 1] returns a new
    vertex [w] placed at the linear interpolation of [u] and [v]; the
    half-edge [(u, v)] gives way to [(u, w)] and [(w, v)] on the UV face,
    [(v, u)] to [(v, w)] and [(w, u)] on the VU face, every other entry of
    the index stays, and [w] enters the UV loop immediately before [v] and
    the VU loop immediately before [u]. *)
Theorem mesh_split_edge_interior (m : Mesh) (u v : Z) (t : Q) (allow_boundary : bool)
    (row_u row_v : gmap Z (option Z)) (fkey_uv fkey_vu : Z) (a b : xyz)
    (loop_uv loop_vu : list Z) :
  (0 < t)%Q → (t < 1)%Q → keys_bounded m → u ≠ v →
  halfedge m !! u = Some row_u → row_u !! v = Some (Some fkey_uv) →
  halfedge m !! v = Some row_v → row_v !! u = Some (Some fkey_vu) →
  vertex m !! u = Some a → vertex m !! v = Some b →
  face m !! fkey_uv = Some loop_uv → v ∈ loop_uv →
  face m !! fkey_vu = Some loop_vu → u ∈ loop_vu →
  ∃ (w : Z) (m' : Mesh),
    mesh_split_edge u v t allow_boundary m = (Ok (Some w), m') ∧
    vertex m !! w = None ∧
    vertex m' = <[w := interpolate a b t]> (vertex m) ∧
    he m' u w = Some (Some fkey_uv) ∧ he m' w v = Some (Some fkey_uv) ∧
    he m' u v = None ∧
    he m' v w = Some (Some fkey_vu) ∧ he m' w u = Some (Some fkey_vu) ∧
    he m' v u = None ∧
    (∀ y, y ≠ u → y ≠ v → he m' w y = None) ∧
    (∀ x y, x ≠ w → ¬ (x = u ∧ (y = v ∨ y = w)) → ¬ (x = v ∧ (y = u ∨ y = w)) →
            he m' x y = he m x y) ∧
    (∃ loop_uv' loop_vu',
        face m' !! fkey_uv = Some loop_uv' ∧ face m' !! fkey_vu = Some loop_vu' ∧
        immediately_before w v loop_uv' ∧ immediately_before w u loop_vu') ∧
    (∀ f, f ≠ fkey_uv → f ≠ fkey_vu → face m' !! f = face m !! f) ∧
    (fkey_uv ≠ fkey_vu →
       ∃ pre post pre' post',
         loop_uv = pre ++ v :: post ∧
         face m' !! fkey_uv = Some (pre ++ w :: v :: post) ∧
         loop_vu = pre' ++ u :: post' ∧
         face m' !! fkey_vu = Some (pre' ++ w :: u :: post')).
Proof.
  intros H0 H1 Hb Huv Hu Hruv Hv Hrvu Ha Hbv HLuv HvL HLvu HuL.
  destruct (split_edge_run m u v t allow_boundary row_u row_v fkey_uv fkey_vu
              a b loop_uv loop_vu) as (j & i & L & Hj & HL & Hi & Hrun); try done.
  destruct (keys_bounded_fresh m Hb) as [Hwv Hwh].
  pose proof (keys_bounded_ne _ _ _ Hb Hu) as Huw.
  pose proof (keys_bounded_ne _ _ _ Hb Hv) as Hvw.
  set (w := max_int_key m + 1) in *.
  eexists w, _. split; [exact Hrun|]. split; [done|]. split; [done|].
  assert (Hhe : ∀ x y,
    he (mkMesh (<[w := interpolate a b t]> (vertex m))
          (<[fkey_vu := list_insert_at i w L]>
             (<[fkey_uv := list_insert_at j w loop_uv]> (face m)))
          (<[v := delete u (<[w := Some fkey_vu]> row_v)]>
             (<[w := <[u := Some fkey_vu]> {[v := Some fkey_uv]}]>
                (<[u := delete v (<[w := Some fkey_uv]> row_u)]> (halfedge m))))
          w (max_int_fkey m)) x y =
    if decide (x = v) then delete u (<[w := Some fkey_vu]> row_v) !! y
    else if decide (x = w) then (<[u := Some fkey_vu]> {[v := Some fkey_uv]} : gmap Z (option Z)) !! y
    else if decide (x = u) then delete v (<[w := Some fkey_uv]> row_u) !! y
    else he m x y).
  { intros x y. unfold he at 1. simpl.
    destruct (decide (x = v)) as [->|?]; [by rewrite lookup_insert_eq|].
    rewrite (lookup_insert_ne _ v) by done.
    destruct (decide (x = w)) as [->|?]; [by rewrite lookup_insert_eq|].
    rewrite (lookup_insert_ne _ w) by done.
    destruct (decide (x = u)) as [->|?]; [by rewrite lookup_insert_eq|].
    by rewrite (lookup_insert_ne _ u) by done. }
  repeat split.
  - rewrite Hhe. repeat case_decide; simplify_eq.
    rewrite lookup_delete_ne by done. apply lookup_insert_eq.
  - rewrite Hhe. repeat case_decide; simplify_eq.
    rewrite lookup_insert_ne by done. apply lookup_singleton_eq.
  - rewrite Hhe. repeat case_decide; simplify_eq. apply lookup_delete_eq.
  - rewrite Hhe. repeat case_decide; simplify_eq.
    rewrite lookup_delete_ne by done. apply lookup_insert_eq.
  - rewrite Hhe. repeat case_decide; simplify_eq. apply lookup_insert_eq.
  - rewrite Hhe. repeat case_decide; simplify_eq. apply lookup_delete_eq.
  - intros y Hyu Hyv. rewrite Hhe. repeat case_decide; simplify_eq.
    rewrite lookup_insert_ne by done. by rewrite lookup_singleton_ne.
  - intros x y Hxw Hxu Hxv. rewrite Hhe. repeat case_decide; simplify_eq.
    + rewrite lookup_delete_ne by naive_solver.
      rewrite lookup_insert_ne by naive_solver.
      unfold he. by rewrite Hv.
    + rewrite lookup_delete_ne by naive_solver.
      rewrite lookup_insert_ne by naive_solver.
      unfold he. by rewrite Hu.
    + done.
  - simpl. destruct (decide (fkey_uv = fkey_vu)) as [E|Hne].
    + subst fkey_vu. rewrite lookup_insert_eq in HL. injection HL as <-.
      exists (list_insert_at i w (list_insert_at j w loop_uv)).
      eexists. rewrite !lookup_insert_eq. split; [done|]. split; [done|]. split.
      * apply (immediately_before_preserved _ _ u); [done..|].
        by apply immediately_before_insert.
      * by apply immediately_before_insert.
    + rewrite lookup_insert_ne in HL by done.
      assert (L = loop_vu) as -> by congruence.
      exists (list_insert_at j w loop_uv), (list_insert_at i w loop_vu).
      rewrite lookup_insert_ne, !lookup_insert_eq by done.
      split; [done|]. split; [done|].
      split; by apply immediately_before_insert.
  - intros f Hf1 Hf2. simpl. by rewrite !lookup_insert_ne.
  - intros Hne. simpl. rewrite lookup_insert_ne in HL by done.
    assert (L = loop_vu) as -> by congruence.
    exists (take j loop_uv), (drop (S j) loop_uv), (take i loop_vu), (drop (S i) loop_vu).
    rewrite lookup_insert_ne, !lookup_insert_eq by done.
    rewrite !(list_insert_at_split _ w _ _) by done.
    destruct (index_split _ _ _ Hj) as [? _].
    destruct (index_split _ _ _ Hi) as [? _]. done.
Qed.

(** ** Steps on the half-edge index, read through [he] *)

Lemma halfedge_set_spec m u v f :
  is_Some (halfedge m !! u) →
  ∃ m', halfedge_set u v f m = (Ok tt, m') ∧ same_tables m m' ∧
        dom (halfedge m') = dom (halfedge m) ∧
        ∀ a b, he m' a b = if decide (a = u ∧ b = v) then Some f else he m a b.
Proof.
  intros [row Hrow]. eexists. split; [by apply halfedge_set_Ok|].
  split; [done|]. split.
  - simpl. rewrite dom_insert_L. apply elem_of_dom_2 in Hrow. set_solver.
  - intros a b. unfold he at 1. simpl. rewrite lookup_insert.
    destruct (decide (u = a)) as [<-|Hne]; simpl.
    + rewrite lookup_insert. destruct (decide (v = b)) as [<-|Hne].
      * by rewrite decide_True.
      * rewrite decide_False by naive_solver. unfold he. by rewrite Hrow.
    + by rewrite decide_False by naive_solver.
Qed.

Lemma halfedge_del_spec m u v :
  is_Some (he m u v) →
  ∃ m', halfedge_del u v m = (Ok tt, m') ∧ same_tables m m' ∧
        dom (halfedge m') = dom (halfedge m) ∧
        ∀ a b, he m' a b = if decide (a = u ∧ b = v) then None else he m a b.
Proof.
  intros [f Hf]. unfold he in Hf.
  destruct (halfedge m !! u) as [row|] eqn:Hrow; [simpl in Hf|done].
  eexists. split; [by eapply halfedge_del_Ok|].
  split; [done|]. split.
  - simpl. rewrite dom_insert_L. apply elem_of_dom_2 in Hrow. set_solver.
  - intros a b. unfold he at 1. simpl. rewrite lookup_insert.
    destruct (decide (u = a)) as [<-|Hne]; simpl.
    + rewrite lookup_delete. destruct (decide (v = b)) as [<-|Hne].
      * by rewrite decide_True.
      * rewrite decide_False by naive_solver. unfold he. by rewrite Hrow.
    + by rewrite decide_False by naive_solver.
Qed.





(** ** Face split *)

Lemma index_app_cons (x : Z) (A B : list Z) :
  x ∉ A → index x (A ++ x :: B) = Ok (length A).
Proof.
  induction A as [|a A IH]; simpl; intros Hx.
  - by rewrite decide_True.
  - apply not_elem_of_cons in Hx as [Hne Hx].
    rewrite decide_False by done. by rewrite IH.
Qed.




Lemma index_cut (A X B : list Z) (u v : Z) :
  NoDup (A ++ u :: X ++ v :: B) →
  index u (A ++ u :: X ++ v :: B) = Ok (length A) ∧
  index v (A ++ u :: X ++ v :: B) = Ok (length A + S (length X))%nat.
Proof.
  intros Hnd.
  apply NoDup_app in Hnd as (HndA & HA & Hnd). apply NoDup_cons in Hnd as [HuX Hnd].
  apply NoDup_app in Hnd as (HndX & HXv & Hnd). apply NoDup_cons in Hnd as [HvB HndB].
  split.
  - apply index_app_cons. intros Hin. apply (HA u Hin). left.
  - replace (A ++ u :: X ++ v :: B) with ((A ++ u :: X) ++ v :: B)
      by (by rewrite <- app_assoc).
    rewrite index_app_cons; [f_equal; rewrite length_app; simpl; lia|].
    intros [Hin|Hin]%elem_of_app.
    + apply (HA v Hin). right. apply elem_of_app. right. left.
    + apply elem_of_cons in Hin as [->|Hin].
      * apply HuX. apply elem_of_app. right. left.
      * apply (HXv v Hin). left.
Qed.







(** ** Face split and the policy of [add_face] *)





















(** ** Triangle edge split *)









(** ** Triangle edge split and the policy of [add_face] *)







(** ** Face split: the precondition checks *)

Lemma mesh_split_face_not_member (policy : nonmanifold_policy) (m : Mesh)
    (fkey u v : Z) (loop : list Z) :
  face m !! fkey = Some loop → u ∉ loop ∨ v ∉ loop →
  mesh_split_face policy fkey u v m = (Raise ValueError, m).
Proof.
  intros Hf Hnot. unfold mesh_split_face.
  rewrite (bind_Ok _ _ _ _ _ (face_get_Ok _ _ _ Hf)).
  assert (negb (contains u loop) || negb (contains v loop) = true) as ->; [|done].
  unfold contains. destruct Hnot as [H|H];
    rewrite (bool_decide_eq_false_2 _ H); [done|apply orb_true_r].
Qed.

Lemma mesh_split_face_successor (policy : nonmanifold_policy) (m : Mesh)
    (fkey u v : Z) (A B : list Z) :
  face m !! fkey = Some (A ++ u :: v :: B) → NoDup (A ++ u :: v :: B) →
  mesh_split_face policy fkey u v m = (Raise ValueError, m).
Proof.
  intros Hf Hnd. unfold mesh_split_face.
  destruct (index_cut A [] B u v Hnd) as [Hiu Hiv]. simpl in Hiu, Hiv.
  rewrite (bind_Ok _ _ _ _ _ (face_get_Ok _ _ _ Hf)).
  assert (contains u (A ++ u :: v :: B) = true) as ->.
  { apply bool_decide_eq_true. apply elem_of_app. right. left. }
  assert (contains v (A ++ u :: v :: B) = true) as ->.
  { apply bool_decide_eq_true. apply elem_of_app. right. right. left. }
  simpl. rewrite (bind_Ok _ _ _ _ _ (face_get_Ok _ _ _ Hf)).
  unfold lift. unfold bind at 1. rewrite Hiu. unfold bind at 1. rewrite Hiv.
  by rewrite decide_True by lia.
Qed.

(** C5.  On the quadrilateral [[0; 1; 2; 3]] the vertices [1] and [0] are
    neighbours, and so are [3] and [0] across the wrap-around, yet neither
    call is answered with [ValueError]: the neighbour check only compares
    [i + 1] with [j].  The accepting mesh has been written to by the time
    the call ends. *)
Theorem mesh_split_face_neighbours_pass (policy : nonmanifold_policy) :
  cyclic_next [0; 1; 2; 3] 0 1 ∧ cyclic_next [0; 1; 2; 3] 3 0 ∧
  (mesh_split_face policy 0 1 0 quad_mesh).1 ≠ Raise ValueError ∧
  (mesh_split_face policy 0 3 0 quad_mesh).1 ≠ Raise ValueError ∧
  (mesh_split_face policy 0 0 3 quad_mesh).1 ≠ Raise ValueError ∧
  (mesh_split_face Accept 0 1 0 quad_mesh).2 ≠ quad_mesh.
Proof.
  split; [by exists 0%nat|]. split; [by exists 3%nat|].
  destruct policy; vm_compute; repeat split; discriminate.
Qed.

(** * Properties of the operator builder *)

Lemma cotangents_arity dot_vectors cross_vectors length_vector edge_vector
    (mesh : Mesh) (u v : Z) :
  trimesh_edge_cotangents dot_vectors cross_vectors length_vector edge_vector mesh u v
  = Raise TypeError.
Proof. reflexivity. Qed.

Lemma cotangent_laplacian_raises dot_vectors cross_vectors length_vector edge_vector
    (mesh : Mesh) :
  edges mesh ≠ [] →
  trimesh_cotangent_laplacian_matrix dot_vectors cross_vectors length_vector
    edge_vector mesh = Raise TypeError.
Proof.
  intros He. unfold trimesh_cotangent_laplacian_matrix.
  destruct (edges mesh) as [|[u v] es]; [done|]. reflexivity.
Qed.

(** C4.  On the two-triangle mesh, whatever the geometry routines compute,
    assembling the cotangent Laplacian ends in a [TypeError]:
    [trimesh_edge_cotangents] calls [trimesh_edge_cotangent] with two
    arguments where three are required, so no matrix is returned. *)
Theorem trimesh_cotangent_laplacian_type_error
    (dot_vectors : xyz → xyz → Q) (cross_vectors : xyz → xyz → xyz)
    (length_vector : xyz → Q) (edge_vector : Mesh → Z → Z → result xyz) :
  trimesh_cotangent_laplacian_matrix dot_vectors cross_vectors length_vector
    edge_vector two_triangles = Raise TypeError.
Proof. apply cotangent_laplacian_raises. by vm_compute. Qed.

(** ** Uniform Laplacian *)

Lemma key_index_is_Some (m : Mesh) (k : Z) :
  is_Some (vertex m !! k) → is_Some (key_index m !! k).
Proof.
  intros [p Hp]. apply not_eq_None_Some. intros Hnone.
  apply not_elem_of_list_to_map in Hnone. apply Hnone.
  rewrite fst_zip by (rewrite length_seq; lia).
  unfold vertices. apply list_elem_of_fmap. exists (k, p). split; [done|].
  by apply elem_of_map_to_list.
Qed.

Lemma vertices_elem (m : Mesh) (k : Z) :
  k ∈ vertices m ↔ is_Some (vertex m !! k).
Proof.
  unfold vertices. rewrite list_elem_of_fmap. split.
  - intros [[k' p] [-> Hin]]. apply elem_of_map_to_list in Hin. by eexists.
  - intros [p Hp]. exists (k, p). split; [done|]. by apply elem_of_map_to_list.
Qed.

Lemma laplacian_row_Ok (ki : gmap Z nat) (d : Q) (r : nat) (nbrs : list Z) (A : coo) :
  (∀ n, n ∈ nbrs → is_Some (ki !! n)) →
  ∃ A', laplacian_row ki d r nbrs A = Ok A'.
Proof.
  revert A. induction nbrs as [|n nbrs IH]; intros A Hn; simpl; [by eexists|].
  destruct (Hn n) as [c Hc]; [left|]. rewrite Hc. simpl.
  apply IH. intros n' Hn'. apply Hn. by right.
Qed.

Lemma float_div_nonzero (a : Q) (n : nat) :
  n ≠ 0%nat → float_div a (inject_Z (Z.of_nat n)) = Ok (a / inject_Z (Z.of_nat n))%Q.
Proof.
  intros Hn. unfold float_div. destruct n as [|n]; [done|]. done.
Qed.

Lemma laplacian_rows_zero_degree (m : Mesh) (ki : gmap Z nat) (keys : list Z)
    (key : Z) (A : coo) :
  (∀ k, k ∈ keys → is_Some (ki !! k) ∧
        ∃ row : gmap Z (option Z), halfedge m !! k = Some row ∧
              ∀ n, is_Some (row !! n) → is_Some (ki !! n)) →
  key ∈ keys → halfedge m !! key = Some ∅ →
  laplacian_rows m ki keys A = Raise ZeroDivisionError.
Proof.
  revert A. induction keys as [|k keys IH]; intros A Hk Hin Hrow.
  { by apply elem_of_nil in Hin. }
  destruct (Hk k) as [[r Hr] (row & Hkrow & Hnb)]; [left|].
  simpl. rewrite Hr. simpl. unfold vertex_neighbors. rewrite Hkrow. simpl.
  destruct ((map_to_list row).*1) as [|n nbrs] eqn:En; [done|].
  rewrite float_div_nonzero by done. simpl.
  destruct (laplacian_row_Ok ki (-1 / inject_Z (Z.of_nat (length (n :: nbrs))))%Q
              r (n :: nbrs) (coo_append 1 r r A)) as [A' HA'].
  { intros n' Hn'. apply Hnb. rewrite <- En in Hn'.
    apply list_elem_of_fmap in Hn' as [[n'' f] [-> Hin']].
    apply elem_of_map_to_list in Hin'. by eexists. }
  simpl in HA'. rewrite HA'. simpl.
  apply IH; [intros k' Hk'; apply Hk; by right| |done].
  apply elem_of_cons in Hin as [->|Hin]; [|done].
  rewrite Hrow in Hkrow. injection Hkrow as <-.
  by rewrite map_to_list_empty in En.
Qed.

(** C8 (as the code has it).  On a mesh whose vertices all have a row in
    the half-edge index and whose neighbours are all vertices, a vertex
    without neighbours makes [mesh_laplacian_matrix] raise
    [ZeroDivisionError]; no matrix is returned. *)
Theorem mesh_laplacian_zero_degree (m : Mesh) (key : Z) :
  dom (vertex m) ⊆ dom (halfedge m) →
  map_Forall (λ _ (row : gmap Z (option Z)), dom row ⊆ dom (vertex m)) (halfedge m) →
  is_Some (vertex m !! key) → halfedge m !! key = Some ∅ →
  vertex_neighbors m key = Ok [] ∧
  mesh_laplacian_matrix m = Raise ZeroDivisionError.
Proof.
  intros Hrows' Hnbrs' Hkey Hzero.
  assert (Hrows : ∀ k, is_Some (vertex m !! k) → is_Some (halfedge m !! k)).
  { intros k Hk. apply elem_of_dom, Hrows'. by apply elem_of_dom. }
  assert (Hnbrs : ∀ k (row : gmap Z (option Z)) n,
             halfedge m !! k = Some row → is_Some (row !! n) → is_Some (vertex m !! n)).
  { intros k row n Hk Hn. apply elem_of_dom. apply (Hnbrs' k row Hk).
    by apply elem_of_dom. }
  split.
  { unfold vertex_neighbors. rewrite Hzero. simpl. by rewrite map_to_list_empty. }
  unfold mesh_laplacian_matrix.
  apply (laplacian_rows_zero_degree m _ _ key); [|by apply vertices_elem|done].
  intros k Hk%vertices_elem. split; [by apply key_index_is_Some|].
  destruct (Hrows k Hk) as [row Hrow]. exists row. split; [done|].
  intros n Hn. apply key_index_is_Some. by eapply Hnbrs.
Qed.

(** C8, refuted as stated: the mesh made of a triangle and a vertex
    without neighbours gets no matrix, the division by the zero degree
    raises. *)
Lemma mesh_laplacian_zero_degree_raises :
  vertex_neighbors triangle_and_point 3 = Ok [] ∧
  mesh_laplacian_matrix triangle_and_point = Raise ZeroDivisionError ∧
  ¬ ∃ L, mesh_laplacian_matrix triangle_and_point = Ok L.
Proof.
  split; [by vm_compute|]. split; [by vm_compute|].
  intros [L HL]. vm_compute in HL. discriminate.
Qed.

(** * Properties of traversal and connectivity *)

Lemma symmetric_closed adjacency : symmetric adjacency → closed adjacency.
Proof.
  intros Hs x y Hxy. destruct (Hs x y Hxy) as (nbrs & Hy & _).
  by apply elem_of_dom.
Qed.

Lemma reach_sym adjacency x y :
  symmetric adjacency → reach adjacency x y → reach adjacency y x.
Proof.
  intros Hs. induction 1 as [|x y z Hxy _ IH]; [constructor|].
  eapply rtc_r; [exact IH|]. by apply Hs.
Qed.

Lemma reach_dom adjacency x y :
  closed adjacency → x ∈ dom adjacency → reach adjacency x y → y ∈ dom adjacency.
Proof.
  intros Hc Hx. induction 1 as [|x y z Hxy _ IH]; [done|].
  apply IH. by eapply Hc.
Qed.

Section Bfs.

Variable adjacency : gmap Z (list Z).
Hypothesis Hclosed : closed adjacency.

Lemma visit_fold (nbrs : list Z) (q : list Z) (vis : gset Z) :
  (∀ y, y ∈ nbrs → y ∈ dom adjacency) →
  (foldl visit_nbr (q, vis) nbrs).2 = vis ∪ list_to_set nbrs ∧
  (∃ new, (foldl visit_nbr (q, vis) nbrs).1 = q ++ new ∧
          ∀ y, y ∈ new ↔ y ∈ nbrs ∧ y ∉ vis) ∧
  (length (foldl visit_nbr (q, vis) nbrs).1 +
     size (dom adjacency ∖ (foldl visit_nbr (q, vis) nbrs).2)
   = length q + size (dom adjacency ∖ vis))%nat.
Proof.
  revert q vis. induction nbrs as [|n nbrs IH]; intros q vis Hdom; simpl.
  - split; [set_solver|]. split; [|done].
    exists []. rewrite app_nil_r. split; [done|]. set_solver.
  - assert (Hdom' : ∀ y, y ∈ nbrs → y ∈ dom adjacency)
      by (intros y Hy; apply Hdom; by right).
    assert (Hstep : visit_nbr (q, vis) n
                    = if decide (n ∈ vis) then (q, vis) else (q ++ [n], {[n]} ∪ vis))
      by done.
    rewrite Hstep. destruct (decide (n ∈ vis)) as [Hin|Hnin].
    + destruct (IH q vis Hdom') as (E2 & (new & E1 & Hnew) & Hsz).
      split; [rewrite E2; set_solver|]. split; [|done].
      exists new. split; [done|]. intros y. rewrite Hnew. set_solver.
    + destruct (IH (q ++ [n]) ({[n]} ∪ vis) Hdom') as (E2 & (new & E1 & Hnew) & Hsz).
      split; [rewrite E2; set_solver|]. split.
      * exists (n :: new). split; [by rewrite E1, <- app_assoc|].
        intros y. rewrite !elem_of_cons, Hnew, not_elem_of_union, elem_of_singleton.
        destruct (decide (y = n)) as [->|?]; naive_solver.
      * rewrite Hsz, length_app. simpl.
        assert (dom adjacency ∖ vis = {[n]} ∪ dom adjacency ∖ ({[n]} ∪ vis)) as ->.
        { apply set_eq. intros y. rewrite elem_of_union, !elem_of_difference,
            elem_of_union, elem_of_singleton.
          split; [|intros [->|?]; [split; [apply Hdom; left|done]|naive_solver]].
          destruct (decide (y = n)); naive_solver. }
        pose proof (size_union (C := gset Z) {[n]}
                      (dom adjacency ∖ ({[n]} ∪ vis))) as Hu.
        rewrite size_singleton in Hu. rewrite Hu by set_solver. lia.
Qed.

Lemma closed_reach (vis : gset Z) (root x : Z) :
  (∀ a b, a ∈ vis → adj_edge adjacency a b → b ∈ vis) →
  root ∈ vis → reach adjacency root x → x ∈ vis.
Proof.
  intros Hc Hroot Hr. revert Hroot.
  induction Hr as [|a b c Hab _ IH]; [done|]. intros Ha. apply IH. by eapply Hc.
Qed.

Lemma bfs_loop_spec (root : Z) (fuel : nat) (q : list Z) (vis : gset Z) :
  (∀ x, x ∈ q → x ∈ vis) →
  (∀ x, x ∈ vis → reach adjacency root x) →
  (∀ x y, x ∈ vis → x ∉ q → adj_edge adjacency x y → y ∈ vis) →
  root ∈ vis → vis ⊆ dom adjacency →
  (length q + size (dom adjacency ∖ vis) ≤ fuel)%nat →
  ∃ V, bfs_loop fuel adjacency q vis = Some (Ok V) ∧
       ∀ x, x ∈ V ↔ reach adjacency root x.
Proof.
  revert q vis. induction fuel as [|fuel IH]; intros q vis I1 I2 I3 I4 I5 Hf.
  - destruct q as [|node rest]; [|simpl in Hf; lia].
    exists vis. split; [done|]. intros x. split; [apply I2|].
    apply closed_reach; [|done]. intros a b Ha. apply I3; [done|apply not_elem_of_nil].
  - destruct q as [|node rest].
    + exists vis. split; [done|]. intros x. split; [apply I2|].
      apply closed_reach; [|done].
      intros a b Ha. apply I3; [done|apply not_elem_of_nil].
    + simpl.
      assert (node ∈ vis) as Hnode by (apply I1; left).
      assert (is_Some (adjacency !! node)) as [nbrs Hn]
        by (apply elem_of_dom, I5, Hnode).
      rewrite Hn.
      assert (Hdom : ∀ y, y ∈ nbrs → y ∈ dom adjacency).
      { intros y Hy. apply (Hclosed node y). by exists nbrs. }
      destruct (visit_fold nbrs rest vis Hdom) as (E2 & (new & E1 & Hnew) & Hsz).
      apply IH.
      * intros x. rewrite E1, E2, elem_of_app, Hnew, elem_of_union,
          elem_of_list_to_set.
        intros [Hx|[Hx _]]; [left; apply I1; by right|by right].
      * intros x. rewrite E2, elem_of_union, elem_of_list_to_set.
        intros [Hx|Hx]; [by apply I2|].
        eapply rtc_r; [apply I2, Hnode|]. by exists nbrs.
      * intros x y. rewrite E1, !E2, elem_of_app, Hnew, !elem_of_union,
          !elem_of_list_to_set.
        intros Hx Hnq Hxy.
        destruct (decide (x ∈ vis)) as [Hxv|Hxv]; [|naive_solver].
        destruct (decide (x = node)) as [->|Hne].
        -- destruct Hxy as (nbrs' & Hn' & Hy). right. congruence.
        -- left. apply (I3 x y); [done| |done].
           intros [?|?]%elem_of_cons; naive_solver.
      * rewrite E2. set_solver.
      * rewrite E2. intros x. rewrite elem_of_union, elem_of_list_to_set.
        intros [?|?]; [by apply I5|by apply Hdom].
      * simpl in Hf. lia.
Qed.

Lemma breadth_first_traverse_spec (root : Z) :
  root ∈ dom adjacency →
  ∃ V, breadth_first_traverse adjacency root = Some (Ok V) ∧
       ∀ x, x ∈ V ↔ reach adjacency root x.
Proof.
  intros Hroot. unfold breadth_first_traverse. apply bfs_loop_spec.
  - intros x ->%list_elem_of_singleton. set_solver.
  - intros x ->%elem_of_singleton. constructor.
  - intros x y ->%elem_of_singleton Hnq. exfalso. apply Hnq. left.
  - set_solver.
  - set_solver.
  - simpl. rewrite <- size_dom.
    assert (size (dom adjacency ∖ {[root]}) < size (dom adjacency))%nat; [|lia].
    apply subset_size. set_solver.
Qed.

End Bfs.

(** ** Components *)

Lemma pick_elem (choose : gset Z → nat) (s : gset Z) :
  s ≠ ∅ → ∃ r, pick choose s = Some r ∧ r ∈ s.
Proof.
  intros Hs. unfold pick.
  assert (length (elements s) ≠ 0%nat) as Hlen.
  { intros Hl. apply Hs. apply leibniz_equiv, elements_empty_inv.
    by apply nil_length_inv. }
  destruct (lookup_lt_is_Some_2 (elements s)
              (choose s `mod` length (elements s))%nat) as [r Hr].
  { by apply Nat.mod_upper_bound. }
  exists r. split; [done|]. apply elem_of_elements.
  by eapply list_elem_of_lookup_2.
Qed.

Section ComponentsSpec.

Variable choose : gset Z → nat.
Variable adjacency : gmap Z (list Z).
Hypothesis Hsym : symmetric adjacency.

Lemma components_loop_spec (fuel : nat) (tovisit : gset Z) (comps : list (list Z)) :
  tovisit ⊆ dom adjacency →
  (∀ x, x ∈ dom adjacency → x ∈ tovisit ∨ x ∈ concat comps) →
  (∀ x, x ∈ tovisit → x ∉ concat comps) →
  (∀ x, x ∈ concat comps → x ∈ dom adjacency) →
  (∀ x y, x ∈ concat comps → reach adjacency x y → y ∈ concat comps) →
  NoDup (concat comps) →
  Forall (is_component adjacency) comps →
  (size tovisit ≤ fuel)%nat →
  ∃ comps', components_loop choose fuel adjacency tovisit comps = Some (Ok comps') ∧
            NoDup (concat comps') ∧
            (∀ x, x ∈ dom adjacency ↔ x ∈ concat comps') ∧
            Forall (is_component adjacency) comps'.
Proof.
  revert tovisit comps.
  induction fuel as [|fuel IH]; intros tovisit comps J0 J1 J2 J3 J4 J5 J6 Hf.
  - assert (tovisit = ∅) as ->.
    { apply leibniz_equiv, size_empty_inv. lia. }
    exists comps. simpl. split; [done|]. split; [done|]. split; [|done].
    intros x. split; [|apply J3]. intros Hx.
    destruct (J1 x Hx) as [Hin|Hin]; [|done]. by apply not_elem_of_empty in Hin.
  - simpl. destruct (decide (tovisit = ∅)) as [->|Hne].
    { exists comps. split; [done|]. split; [done|]. split; [|done].
      intros x. split; [|apply J3]. intros Hx.
      destruct (J1 x Hx) as [Hin|Hin]; [|done]. by apply not_elem_of_empty in Hin. }
    destruct (pick_elem choose tovisit Hne) as (root & -> & Hroot).
    destruct (breadth_first_traverse_spec adjacency (symmetric_closed _ Hsym) root)
      as (V & -> & HV); [by apply J0|].
    assert (root ∈ V) as HrV by (apply HV; constructor).
    assert (Hcat : concat (comps ++ [elements V]) = concat comps ++ elements V).
    { rewrite concat_app. simpl. by rewrite app_nil_r. }
    apply IH.
    + intros x. rewrite !elem_of_difference. intros [[Hx _] _]. by apply J0.
    + intros x Hx. rewrite Hcat, elem_of_app, elem_of_elements,
        !elem_of_difference, elem_of_singleton.
      destruct (decide (x ∈ V)) as [?|HxV]; [by right; right|].
      destruct (J1 x Hx) as [Hin|Hin]; [|by right; left].
      left. split; [|done]. split; [done|]. by intros ->.
    + intros x. rewrite Hcat, !elem_of_difference, elem_of_app, elem_of_elements.
      intros [[Hx _] HxV] [Hin|Hin]; [by apply (J2 x)|done].
    + intros x. rewrite Hcat, elem_of_app, elem_of_elements.
      intros [Hin|Hin]; [by apply J3|].
      eapply reach_dom; [by apply symmetric_closed|by apply J0|by apply HV].
    + intros x y. rewrite Hcat, !elem_of_app, !elem_of_elements.
      intros [Hin|Hin] Hxy; [left; by eapply J4|].
      right. apply HV. etrans; [by apply HV|done].
    + rewrite Hcat. apply NoDup_app. split; [done|]. split; [|apply NoDup_elements].
      intros x Hx HxV%elem_of_elements. apply (J2 root Hroot).
      apply (J4 x root Hx). apply reach_sym; [done|]. by apply HV.
    + apply Forall_app. split; [done|]. apply Forall_singleton.
      exists root. split; [by apply J0|]. split; [apply NoDup_elements|].
      intros x. by rewrite elem_of_elements.
    + assert (size (tovisit ∖ {[root]} ∖ V) < size tovisit)%nat; [|lia].
      apply subset_size. set_solver.
Qed.

End ComponentsSpec.

Lemma connected_components_spec (choose : gset Z → nat) (adjacency : gmap Z (list Z)) :
  symmetric adjacency →
  ∃ comps, connected_components choose adjacency = Some (Ok comps) ∧
           NoDup (concat comps) ∧
           (∀ x, x ∈ dom adjacency ↔ x ∈ concat comps) ∧
           Forall (is_component adjacency) comps.
Proof.
  intros Hsym. unfold connected_components.
  apply components_loop_spec; simpl; try done.
  - intros x Hx. by left.
  - intros x _. apply not_elem_of_nil.
  - intros x Hx. by apply elem_of_nil in Hx.
  - intros x y Hx. by apply elem_of_nil in Hx.
  - apply NoDup_nil_2.
  - by rewrite size_dom.
Qed.

Lemma NoDup_concat_unique (comps : list (list Z)) (i j : nat) (c1 c2 : list Z) (x : Z) :
  NoDup (concat comps) →
  comps !! i = Some c1 → comps !! j = Some c2 → x ∈ c1 → x ∈ c2 → i = j.
Proof.
  revert i j. induction comps as [|c comps IH]; intros i j Hnd Hi Hj H1 H2; [done|].
  simpl in Hnd. apply NoDup_app in Hnd as (_ & Hdis & Hnd).
  assert (Hin : ∀ k c', comps !! k = Some c' → x ∈ c' → x ∈ concat comps).
  { intros k c' Hk Hx. apply list_elem_of_In, in_concat. exists c'.
    split; apply list_elem_of_In; [by eapply list_elem_of_lookup_2|done]. }
  destruct i as [|i], j as [|j]; simpl in *; simplify_eq; try done.
  - exfalso. eapply Hdis; [exact H1|]. by eapply Hin.
  - exfalso. eapply Hdis; [exact H2|]. by eapply Hin.
  - f_equal. by eapply IH.
Qed.

(** C2.  For a symmetric adjacency, [connected_components] returns; every
    vertex of the adjacency lies in a returned component and no other
    identifier does; no vertex occurs twice, neither in two components nor
    twice in one; and each component is the set of vertices reachable from
    one of its members. *)
Theorem connected_components_partition (choose : gset Z → nat)
    (adjacency : gmap Z (list Z)) :
  symmetric adjacency →
  ∃ comps,
    connected_components choose adjacency = Some (Ok comps) ∧
    (∀ x, x ∈ dom adjacency ↔ ∃ c, c ∈ comps ∧ x ∈ c) ∧
    (∀ i j c1 c2 x, comps !! i = Some c1 → comps !! j = Some c2 →
                    x ∈ c1 → x ∈ c2 → i = j) ∧
    NoDup (concat comps) ∧
    Forall (is_component adjacency) comps.
Proof.
  intros Hsym.
  destruct (connected_components_spec choose adjacency Hsym)
    as (comps & E & Hnd & Hcov & Hall).
  exists comps. split; [done|]. split; [|split; [|done]].
  - intros x. rewrite Hcov, list_elem_of_In, in_concat.
    split; intros (c & Hc & Hx); exists c; split; by apply list_elem_of_In.
  - intros i j c1 c2 x. by apply NoDup_concat_unique.
Qed.

(** ** Connectivity *)

Lemma components_length_one (adjacency : gmap Z (list Z)) (comps : list (list Z)) :
  symmetric adjacency → dom adjacency ≠ ∅ →
  NoDup (concat comps) →
  (∀ x, x ∈ dom adjacency ↔ x ∈ concat comps) →
  Forall (is_component adjacency) comps →
  length comps = 1%nat ↔ connected adjacency.
Proof.
  intros Hsym Hne Hnd Hcov Hall. split.
  - intros Hlen. destruct comps as [|c [|? ?]]; try done.
    apply Forall_singleton in Hall as (r & Hr & _ & Hc).
    intros x y Hx%Hcov Hy%Hcov. simpl in Hx, Hy. rewrite app_nil_r in Hx, Hy.
    etrans; [apply reach_sym; [done|]; by apply Hc|by apply Hc].
  - intros Hconn. destruct comps as [|c1 [|c2 comps]]; [|done|].
    + exfalso. apply Hne. apply set_eq. intros x. rewrite Hcov. simpl.
      split; [by intros ?%elem_of_nil|by intros ?%not_elem_of_empty].
    + exfalso. apply Forall_cons in Hall as [(r1 & Hr1 & _ & Hc1) Hall].
      apply Forall_cons in Hall as [(r2 & Hr2 & _ & Hc2) _].
      simpl in Hnd. apply NoDup_app in Hnd as (_ & Hdis & _).
      apply (Hdis r2).
      * apply Hc1. by apply Hconn.
      * apply elem_of_app. left. apply Hc2. constructor.
Qed.

Section ConnectivitySpec.

Variable adjacency : gmap Z (list Z).
Hypothesis Hclosed : closed adjacency.

Lemma bfs_full_iff (root : Z) (V : gset Z) :
  root ∈ dom adjacency →
  (∀ x, x ∈ V ↔ reach adjacency root x) →
  size V = size (dom adjacency) ↔ V = dom adjacency.
Proof.
  intros Hroot HV. split; [|by intros ->].
  intros Hsize. apply leibniz_equiv. apply set_subseteq_size_equiv; [|lia].
  intros x Hx%HV. by eapply reach_dom.
Qed.

Lemma full_iff_connected (root : Z) (V : gset Z) :
  symmetric adjacency → root ∈ dom adjacency →
  (∀ x, x ∈ V ↔ reach adjacency root x) →
  V = dom adjacency ↔ connected adjacency.
Proof.
  intros Hsym Hroot HV. split.
  - intros -> x y Hx%HV Hy%HV. etrans; [by apply reach_sym|done].
  - intros Hconn. apply set_eq. intros x. split.
    + intros Hx%HV. by eapply reach_dom.
    + intros Hx. apply HV. by apply Hconn.
Qed.

Lemma connected_iff_bfs :
  symmetric adjacency →
  connected adjacency ↔
  ∀ r, r ∈ dom adjacency →
       breadth_first_traverse adjacency r = Some (Ok (dom adjacency)).
Proof.
  intros Hsym. split.
  - intros Hconn r Hr.
    destruct (breadth_first_traverse_spec adjacency Hclosed r Hr) as (V & -> & HV).
    do 2 f_equal. by apply (full_iff_connected r).
  - intros Hall x y Hx Hy.
    destruct (breadth_first_traverse_spec adjacency Hclosed x Hx) as (V & E & HV).
    rewrite (Hall x Hx) in E. injection E as <-. by apply HV.
Qed.

End ConnectivitySpec.

Lemma mesh_adjacency_dom (m : Mesh) : dom (mesh_adjacency m) = dom (halfedge m).
Proof. unfold mesh_adjacency. apply dom_fmap_L. Qed.

Lemma mesh_is_connected_spec (choose : gset Z → nat) (m : Mesh) :
  closed (mesh_adjacency m) → dom (halfedge m) = dom (vertex m) →
  vertex m ≠ ∅ →
  ∃ (root : Z) (V : gset Z), root ∈ dom (mesh_adjacency m) ∧
            (∀ x, x ∈ V ↔ reach (mesh_adjacency m) root x) ∧
            mesh_is_connected choose m
            = Some (Ok (bool_decide (size V = size (dom (mesh_adjacency m))))).
Proof.
  intros Hclosed Hdom Hne.
  unfold mesh_is_connected, mesh_get_any_vertex, number_of_vertices.
  rewrite decide_False by done.
  destruct (pick_elem choose (dom (vertex m))) as (root & -> & Hroot).
  { intros Hd. apply Hne. by apply dom_empty_iff_L. }
  simpl. rewrite <- Hdom, <- mesh_adjacency_dom in Hroot.
  destruct (breadth_first_traverse_spec _ Hclosed root Hroot) as (V & -> & HV).
  exists root, V. split; [done|]. split; [done|].
  by rewrite mesh_adjacency_dom, Hdom, size_dom.
Qed.

(** C9.  With an empty vertex table [mesh_is_connected] answers [False].
    Otherwise, on a mesh whose half-edge index has a row per vertex and is
    symmetric, it answers, [connected_components] returns, and the answer
    is [True] exactly when there is one component, which is exactly when a
    traversal from any vertex visits every vertex. *)
Theorem mesh_is_connected_iff_one_component (choose choose' : gset Z → nat)
    (m : Mesh) :
  dom (halfedge m) = dom (vertex m) → symmetric (mesh_adjacency m) →
  (vertex m = ∅ → mesh_is_connected choose m = Some (Ok false)) ∧
  (vertex m ≠ ∅ →
   ∃ (b : bool) (comps : list (list Z)),
     mesh_is_connected choose m = Some (Ok b) ∧
     connected_components choose' (mesh_adjacency m) = Some (Ok comps) ∧
     (b = true ↔ length comps = 1%nat) ∧
     (b = true ↔
      ∀ r, r ∈ dom (vertex m) →
           breadth_first_traverse (mesh_adjacency m) r = Some (Ok (dom (vertex m))))).
Proof.
  intros Hdom Hsym. split.
  { intros He. unfold mesh_is_connected. by rewrite decide_True. }
  intros Hne.
  pose proof (symmetric_closed _ Hsym) as Hclosed.
  destruct (mesh_is_connected_spec choose m Hclosed Hdom Hne)
    as (root & V & Hroot & HV & E).
  destruct (connected_components_spec choose' (mesh_adjacency m) Hsym)
    as (comps & Ec & Hnd & Hcov & Hall).
  assert (dom (mesh_adjacency m) ≠ ∅) as Hne'.
  { rewrite mesh_adjacency_dom, Hdom. intros Hd. apply Hne.
    by apply dom_empty_iff_L. }
  assert (Hb : bool_decide (size V = size (dom (mesh_adjacency m))) = true
               ↔ connected (mesh_adjacency m)).
  { rewrite bool_decide_eq_true, (bfs_full_iff _ Hclosed root) by done.
    by apply (full_iff_connected _ Hclosed root). }
  eexists _, comps. split; [exact E|]. split; [exact Ec|]. split.
  - rewrite Hb. symmetry. by apply components_length_one.
  - rewrite Hb, (connected_iff_bfs _ Hclosed Hsym).
    by rewrite mesh_adjacency_dom, Hdom.
Qed.

(** C10.  A mesh and a network with the same vertex table and the same
    adjacency get the same answer from [mesh_is_connected] and
    [network_is_connected] when the arbitrary vertex is chosen alike; and
    when every neighbour is a vertex and the vertex table is not empty,
    that answer is a boolean, the one that compares the number of visited
    vertices with the number of vertices. *)
Theorem network_is_connected_agrees (choose : gset Z → nat)
    (mesh : Mesh) (network : Network) :
  vertex mesh = network_vertex network →
  mesh_adjacency mesh = network_adjacency network →
  mesh_is_connected choose mesh = network_is_connected choose network ∧
  (closed (mesh_adjacency mesh) → dom (halfedge mesh) = dom (vertex mesh) →
   ∃ b : bool, network_is_connected choose network = Some (Ok b)).
Proof.
  intros Hv Ha.
  assert (mesh_is_connected choose mesh = network_is_connected choose network) as E.
  { unfold mesh_is_connected, network_is_connected, mesh_get_any_vertex,
      network_get_any_vertex, number_of_vertices, network_number_of_vertices.
    by rewrite Hv, Ha. }
  split; [done|]. intros Hclosed Hdom. rewrite <- E.
  destruct (decide (vertex mesh = ∅)) as [He|Hne].
  - exists false. unfold mesh_is_connected. by rewrite decide_True.
  - destruct (mesh_is_connected_spec choose mesh Hclosed Hdom Hne)
      as (root & V & _ & _ & ->). by eexists.
Qed.

(** * The statements at concrete meshes *)

Lemma symmetricb_sound (adjacency : gmap Z (list Z)) :
  symmetricb adjacency = true → symmetric adjacency.
Proof.
  unfold symmetricb. rewrite forallb_forall. intros H x y (nbrs & Hx & Hy).
  specialize (H (x, nbrs)). simpl in H. rewrite forallb_forall in H.
  assert (In (x, nbrs) (map_to_list adjacency)) as Hin
    by (apply list_elem_of_In; by apply elem_of_map_to_list).
  specialize (H Hin y). rewrite <- list_elem_of_In in H. specialize (H Hy).
  destruct (adjacency !! y) as [l|] eqn:El; [|done].
  apply bool_decide_eq_true in H. by exists l.
Qed.

Ltac by_compute := apply (bool_decide_unpack _); vm_compute; exact I.




Lemma mesh_split_edge_interior_witness :
  ∃ (w : Z) (m' : Mesh),
    mesh_split_edge 0 2 (1 # 2) false two_triangles = (Ok (Some w), m') ∧
    vertex m' = <[w := XYZ (0 + (1 # 2) * (1 - 0)) (0 + (1 # 2) * (1 - 0))
                           (0 + (1 # 2) * (0 - 0))]> (vertex two_triangles) ∧
    he m' 0 w = Some (Some 1) ∧ he m' w 2 = Some (Some 1) ∧
    he m' 2 w = Some (Some 0) ∧ he m' w 0 = Some (Some 0).
Proof.
  destruct (mesh_split_edge_interior two_triangles 0 2 (1 # 2) false
              (list_to_map [(1, Some 0); (2, Some 1); (3, None)])
              (list_to_map [(0, Some 0); (3, Some 1); (1, None)])
              1 0 (XYZ 0 0 0) (XYZ 1 1 0) [0; 2; 3] [0; 1; 2])
    as (w & m' & E & _ & V & H1 & H2 & _ & H3 & H4 & _);
    [reflexivity | reflexivity | by_compute | lia
    | reflexivity | reflexivity | reflexivity | reflexivity
    | reflexivity | reflexivity | reflexivity | by_compute
    | reflexivity | by_compute |].
  by exists w, m'.
Defined.

Lemma split_edge_boundary_skip_witness :
  mesh_split_edge 0 1 (1 # 2) false quad_mesh = (Ok None, quad_mesh) ∧
  trimesh_split_edge Accept 0 1 (1 # 2) false quad_mesh = (Ok None, quad_mesh).
Proof.
  apply (split_edge_boundary_skip Accept quad_mesh 0 1 (1 # 2)
           (list_to_map [(1, Some 0); (3, None)])
           (list_to_map [(2, Some 0); (0, None)]) (Some 0) None);
    [reflexivity | reflexivity | reflexivity | reflexivity
    | reflexivity | reflexivity | by right].
Defined.



Lemma mesh_laplacian_zero_degree_witness :
  vertex_neighbors triangle_and_point 3 = Ok [] ∧
  mesh_laplacian_matrix triangle_and_point = Raise ZeroDivisionError.
Proof.
  apply (mesh_laplacian_zero_degree triangle_and_point 3);
    [by_compute | by_compute | by_compute | reflexivity].
Defined.

Lemma connected_components_partition_witness :
  ∃ comps,
    connected_components (λ _, 0%nat) disjoint_triangles = Some (Ok comps) ∧
    (∀ x, x ∈ dom disjoint_triangles ↔ ∃ c, c ∈ comps ∧ x ∈ c) ∧
    NoDup (concat comps).
Proof.
  destruct (connected_components_partition (λ _, 0%nat) disjoint_triangles)
    as (comps & E & Hcov & _ & Hnd & _).
  - apply symmetricb_sound. vm_compute. reflexivity.
  - by exists comps.
Defined.

Lemma mesh_is_connected_iff_one_component_witness :
  ∃ (b : bool) (comps : list (list Z)),
    mesh_is_connected (λ _, 0%nat) quad_mesh = Some (Ok b) ∧
    connected_components (λ _, 1%nat) (mesh_adjacency quad_mesh) = Some (Ok comps) ∧
    (b = true ↔ length comps = 1%nat).
Proof.
  destruct (mesh_is_connected_iff_one_component (λ _, 0%nat) (λ _, 1%nat) quad_mesh)
    as [_ H].
  - by vm_compute.
  - apply symmetricb_sound. vm_compute. reflexivity.
  - destruct H as (b & comps & E1 & E2 & Hb & _).
    + intros He. by vm_compute in He.
    + by exists b, comps.
Defined.

Lemma network_is_connected_agrees_witness :
  mesh_is_connected (λ _, 0%nat) quad_mesh
  = network_is_connected (λ _, 0%nat) quad_network.
Proof.
  apply (network_is_connected_agrees (λ _, 0%nat) quad_mesh quad_network);
    reflexivity.
Defined.

(** * Further properties of the editor *)

(** ** Edge split: what is checked before anything is written *)

Lemma halfedge_get_he m x y :
  halfedge_get x y m
  = match he m x y with
    | Some f => (Ok f, m)
    | None => (Raise KeyError, m)
    end.
Proof.
  unfold halfedge_get, he. destruct (halfedge m !! x) as [row|]; simpl; [|done].
  by destruct (row !! y).
Qed.

(** X1.  A parameter [t] outside the open unit interval is answered with
    [ValueError] by both edge splits, before the mesh is looked at: the
    mesh is unchanged, whether or not [(u, v)] is an edge. *)
Theorem split_edge_parameter_error (policy : nonmanifold_policy) (m : Mesh)
    (u v : Z) (t : Q) (allow_boundary : bool) :
  (t <= 0)%Q ∨ (1 <= t)%Q →
  mesh_split_edge u v t allow_boundary m = (Raise ValueError, m) ∧
  trimesh_split_edge policy u v t allow_boundary m = (Raise ValueError, m).
Proof.
  intros Ht. unfold mesh_split_edge, trimesh_split_edge.
  destruct (Qle_bool t 0) eqn:E0; [done|].
  destruct Ht as [Ht|Ht].
  - apply Qle_bool_iff in Ht. congruence.
  - apply Qle_bool_iff in Ht. by rewrite Ht.
Qed.

Lemma split_edge_parameter_error_witness :
  mesh_split_edge 0 1 1 true quad_mesh = (Raise ValueError, quad_mesh) ∧
  trimesh_split_edge Accept 0 1 1 true quad_mesh = (Raise ValueError, quad_mesh).
Proof.
  apply (split_edge_parameter_error Accept quad_mesh 0 1 1 true).
  right. unfold Qle. simpl. lia.
Defined.

(** X2.  For [0 < t < 1] and a pair [(u, v)] of which one direction is not
    in the half-edge index, both edge splits raise [KeyError] and leave
    the mesh unchanged. *)
Theorem split_edge_missing_halfedge (policy : nonmanifold_policy) (m : Mesh)
    (u v : Z) (t : Q) (allow_boundary : bool) :
  (0 < t)%Q → (t < 1)%Q →
  he m u v = None ∨ he m v u = None →
  mesh_split_edge u v t allow_boundary m = (Raise KeyError, m) ∧
  trimesh_split_edge policy u v t allow_boundary m = (Raise KeyError, m).
Proof.
  intros H0 H1 Hmiss.
  destruct (split_parameter_ok t H0 H1) as [E0 E1].
  unfold mesh_split_edge, trimesh_split_edge. rewrite E0, E1.
  unfold bind at 1 13. rewrite !halfedge_get_he.
  destruct (he m u v) as [fuv|] eqn:Euv; [|done].
  destruct Hmiss as [?|Hvu]; [done|].
  unfold bind at 1 12. rewrite !halfedge_get_he, Hvu. done.
Qed.

Lemma split_edge_missing_halfedge_witness :
  mesh_split_edge 0 2 (1 # 2) true quad_mesh = (Raise KeyError, quad_mesh) ∧
  trimesh_split_edge Accept 0 2 (1 # 2) true quad_mesh = (Raise KeyError, quad_mesh).
Proof.
  apply (split_edge_missing_halfedge Accept quad_mesh 0 2 (1 # 2) true);
    [reflexivity | reflexivity | left; reflexivity].
Defined.

(** ** Edge split of a general mesh, boundary included *)

Lemma add_vertex_spec m p :
  keys_bounded m →
  ∃ m', add_vertex p m = (Ok (max_int_key m + 1), m') ∧
        vertex m' = <[max_int_key m + 1 := p]> (vertex m) ∧ face m' = face m ∧
        max_int_key m' = max_int_key m + 1 ∧ max_int_fkey m' = max_int_fkey m ∧
        dom (halfedge m') = {[max_int_key m + 1]} ∪ dom (halfedge m) ∧
        ∀ a b, he m' a b = he m a b.
Proof.
  intros Hb. destruct (keys_bounded_fresh m Hb) as [Hwv Hwh].
  eexists. split; [by apply add_vertex_fresh|]. simpl.
  split; [done|]. split; [done|]. split; [done|]. split; [done|]. split.
  - by rewrite dom_insert_L.
  - intros a b. unfold he. simpl. rewrite lookup_insert.
    case_decide; [subst a; by rewrite Hwh|done].
Qed.

Lemma elem_of_inserted_before (x w y : Z) (loop : list Z) :
  y ∈ loop → y ∈ inserted_before x w loop.
Proof.
  intros Hy. unfold inserted_before. destruct (index x loop) as [j|]; [|done].
  unfold list_insert_at. rewrite <- (take_drop j loop) in Hy.
  apply elem_of_app in Hy as [?|?]; apply elem_of_app; [by left|].
  right. by apply elem_of_cons; right.
Qed.

Lemma inserted_before_elem (x w : Z) (loop : list Z) :
  x ∈ loop → w ∈ inserted_before x w loop.
Proof.
  intros [j Hj]%index_elem. unfold inserted_before. rewrite Hj.
  unfold list_insert_at. apply elem_of_app. right. apply elem_of_cons. by left.
Qed.

Lemma inserted_before_length (x w : Z) (loop : list Z) :
  x ∈ loop → length (inserted_before x w loop) = S (length loop).
Proof.
  intros [j Hj]%index_elem. unfold inserted_before. rewrite Hj.
  unfold list_insert_at. rewrite length_app. simpl.
  rewrite <- (take_drop j loop) at 3. rewrite length_app. lia.
Qed.

Lemma inserted_before_split (x w : Z) (loop : list Z) :
  x ∈ loop →
  ∃ pre post, loop = pre ++ x :: post ∧ (x ∉ pre) ∧
              inserted_before x w loop = pre ++ w :: x :: post.
Proof.
  intros [j Hj]%index_elem. unfold inserted_before. rewrite Hj.
  destruct (index_split _ _ _ Hj) as (E & Hpre & _).
  exists (take j loop), (drop (S j) loop).
  split; [done|]. split; [done|]. by apply list_insert_at_split.
Qed.

Lemma insert_side_spec m fkey x w :
  (∀ f, fkey = Some f → ∃ loop, face m !! f = Some loop ∧ x ∈ loop) →
  ∃ m', (match fkey with
         | Some f => face_insert_before f x w
         | None => ret tt
         end) m = (Ok tt, m') ∧
        vertex m' = vertex m ∧ halfedge m' = halfedge m ∧
        max_int_key m' = max_int_key m ∧ max_int_fkey m' = max_int_fkey m ∧
        ∀ f, face m' !! f
             = (λ loop, if decide (fkey = Some f) then inserted_before x w loop
                        else loop) <$> face m !! f.
Proof.
  intros H. destruct fkey as [f0|].
  - destruct (H f0 eq_refl) as (loop & Hl & Hx).
    destruct (index_elem x loop Hx) as [j Hj].
    eexists. split; [by eapply face_insert_before_Ok|]. simpl.
    split; [done|]. split; [done|]. split; [done|]. split; [done|].
    intros f. rewrite lookup_insert. destruct (decide (f0 = f)) as [<-|Hne].
    + rewrite Hl. simpl. rewrite decide_True by done.
      unfold inserted_before. by rewrite Hj.
    + destruct (face m !! f); simpl; [|done].
      by rewrite decide_False by congruence.
  - exists m. split; [done|]. split; [done|]. split; [done|].
    split; [done|]. split; [done|].
    intros f. by destruct (face m !! f).
Qed.

Lemma he_is_Some_row m x y : is_Some (he m x y) → is_Some (halfedge m !! x).
Proof. unfold he. destruct (halfedge m !! x); [by eauto|]. by intros [? ?]. Qed.

Lemma split_edge_spec (m : Mesh) (u v : Z) (t : Q) (allow_boundary : bool)
    (fkey_uv fkey_vu : option Z) :
  (0 < t)%Q → (t < 1)%Q →
  splittable m u v fkey_uv fkey_vu → split_allowed allow_boundary fkey_uv fkey_vu →
  ∃ (m' : Mesh) (a b : xyz),
    vertex m !! u = Some a ∧ vertex m !! v = Some b ∧
    mesh_split_edge u v t allow_boundary m = (Ok (Some (max_int_key m + 1)), m') ∧
    vertex m' = <[max_int_key m + 1 := interpolate a b t]> (vertex m) ∧
    max_int_key m' = max_int_key m + 1 ∧ max_int_fkey m' = max_int_fkey m ∧
    dom (halfedge m') = {[max_int_key m + 1]} ∪ dom (halfedge m) ∧
    (∀ x y, he m' x y = split_he m u v (max_int_key m + 1) fkey_uv fkey_vu x y) ∧
    (∀ f, face m' !! f
          = split_loop fkey_uv fkey_vu u v (max_int_key m + 1) f <$> face m !! f).
Proof.
  intros H0 H1 (Hb & Huv & Heuv & Hevu & [a Ha] & [b Hbv] & Hfuv & Hfvu) Hallow.
  destruct (split_parameter_ok t H0 H1) as [E0 E1].
  destruct (keys_bounded_fresh m Hb) as [Hwv Hwh].
  assert (is_Some (halfedge m !! u)) as Hru by (apply (he_is_Some_row m u v); by rewrite Heuv).
  assert (is_Some (halfedge m !! v)) as Hrv by (apply (he_is_Some_row m v u); by rewrite Hevu).
  assert (u ≠ max_int_key m + 1) as Huw by (intros ->; rewrite Hwh in Hru; by destruct Hru).
  assert (v ≠ max_int_key m + 1) as Hvw by (intros ->; rewrite Hwh in Hrv; by destruct Hrv).
  set (w := max_int_key m + 1) in *.
  assert (Hg1 : halfedge_get u v m = (Ok fkey_uv, m)) by (by rewrite halfedge_get_he, Heuv).
  assert (Hg2 : halfedge_get v u m = (Ok fkey_vu, m)) by (by rewrite halfedge_get_he, Hevu).
  unfold mesh_split_edge. rewrite E0, E1.
  rewrite (bind_Ok _ _ _ _ _ Hg1), (bind_Ok _ _ _ _ _ Hg2).
  assert (negb allow_boundary && (is_none fkey_uv || is_none fkey_vu) = false) as ->.
  { destruct Hallow as [-> | [[? ->] [? ->]]]; [done|]. by rewrite andb_false_r. }
  rewrite (bind_Ok _ _ _ _ _ (edge_point_Ok _ _ _ t _ _ Ha Hbv)).
  destruct (add_vertex_spec m (interpolate a b t) Hb)
    as (m1 & R1 & V1 & F1 & K1 & FK1 & D1 & He1). fold w in R1, V1, K1, D1.
  rewrite (bind_Ok _ _ _ _ _ R1).
  destruct (halfedge_set_spec m1 u w fkey_uv) as (m2 & R2 & (V2 & F2 & K2 & FK2) & D2 & He2).
  { apply elem_of_dom. rewrite D1. apply elem_of_union_r. by apply elem_of_dom. }
  rewrite (bind_Ok _ _ _ _ _ R2).
  destruct (halfedge_set_spec m2 w v fkey_uv) as (m3 & R3 & (V3 & F3 & K3 & FK3) & D3 & He3).
  { apply elem_of_dom. rewrite D2, D1. apply elem_of_union_l. by apply elem_of_singleton. }
  rewrite (bind_Ok _ _ _ _ _ R3).
  destruct (halfedge_del_spec m3 u v) as (m4 & R4 & (V4 & F4 & K4 & FK4) & D4 & He4).
  { rewrite He3, He2, He1, Heuv. rewrite !decide_False by naive_solver. done. }
  rewrite (bind_Ok _ _ _ _ _ R4).
  destruct (insert_side_spec m4 fkey_uv v w) as (m5 & R5 & V5 & H5 & K5 & FK5 & F5).
  { intros f Hf. rewrite F4, F3, F2, F1. by apply Hfuv. }
  rewrite (bind_Ok _ _ _ _ _ R5).
  assert (He5 : ∀ x y, he m5 x y = he m4 x y) by (intros; unfold he; by rewrite H5).
  destruct (halfedge_set_spec m5 v w fkey_vu) as (m6 & R6 & (V6 & F6 & K6 & FK6) & D6 & He6).
  { apply elem_of_dom. rewrite H5, D4, D3, D2, D1. apply elem_of_union_r.
    by apply elem_of_dom. }
  rewrite (bind_Ok _ _ _ _ _ R6).
  destruct (halfedge_set_spec m6 w u fkey_vu) as (m7 & R7 & (V7 & F7 & K7 & FK7) & D7 & He7).
  { apply elem_of_dom. rewrite D6, H5, D4, D3, D2, D1. apply elem_of_union_l.
    by apply elem_of_singleton. }
  rewrite (bind_Ok _ _ _ _ _ R7).
  destruct (halfedge_del_spec m7 v u) as (m8 & R8 & (V8 & F8 & K8 & FK8) & D8 & He8).
  { rewrite He7, He6, He5, He4, He3, He2, He1, Hevu.
    rewrite !decide_False by naive_solver. done. }
  rewrite (bind_Ok _ _ _ _ _ R8).
  destruct (insert_side_spec m8 fkey_vu u w) as (m9 & R9 & V9 & H9 & K9 & FK9 & F9).
  { intros f Hf. rewrite F8, F7, F6, F5, F4, F3, F2, F1.
    destruct (Hfvu f Hf) as (loop & -> & Hu). simpl. eexists. split; [done|].
    case_decide; [by apply elem_of_inserted_before|done]. }
  rewrite (bind_Ok _ _ _ _ _ R9).
  exists m9, a, b. split; [done|]. split; [done|]. split; [done|].
  split; [by rewrite V9, V8, V7, V6, V5, V4, V3, V2, V1|].
  split; [by rewrite K9, K8, K7, K6, K5, K4, K3, K2, K1|].
  split; [by rewrite FK9, FK8, FK7, FK6, FK5, FK4, FK3, FK2, FK1|].
  split; [by rewrite H9, D8, D7, D6, H5, D4, D3, D2, D1|].
  split.
  - intros x y. unfold he at 1. rewrite H9. fold (he m8 x y).
    rewrite He8, He7, He6, He5, He4, He3, He2, He1. unfold split_he.
    repeat case_decide; naive_solver.
  - intros f. rewrite F9, F8, F7, F6, F5, F4, F3, F2, F1. unfold split_loop.
    by destruct (face m !! f).
Qed.

Lemma split_loop_mono (fkey_uv fkey_vu : option Z) (u v w f y : Z) (loop : list Z) :
  y ∈ loop → y ∈ split_loop fkey_uv fkey_vu u v w f loop.
Proof.
  intros Hy. unfold split_loop.
  repeat case_decide; repeat apply elem_of_inserted_before; done.
Qed.

Lemma split_loop_new (fkey_uv fkey_vu : option Z) (u v w f : Z) (loop : list Z) :
  (fkey_uv = Some f ∧ v ∈ loop) ∨ (fkey_vu = Some f ∧ u ∈ loop) →
  w ∈ split_loop fkey_uv fkey_vu u v w f loop.
Proof.
  unfold split_loop. intros [[E Hv]|[E Hu]].
  - destruct (decide (fkey_uv = Some f)); [|done].
    case_decide; [apply elem_of_inserted_before|]; by apply inserted_before_elem.
  - destruct (decide (fkey_vu = Some f)); [|done].
    apply inserted_before_elem. case_decide; [by apply elem_of_inserted_before|done].
Qed.

Lemma split_loop_length (fkey_uv fkey_vu : option Z) (u v w f : Z) (loop : list Z) :
  (fkey_uv = Some f → v ∈ loop) → (fkey_vu = Some f → u ∈ loop) →
  length (split_loop fkey_uv fkey_vu u v w f loop)
  = (length loop + (if decide (fkey_uv = Some f) then 1 else 0)
                 + (if decide (fkey_vu = Some f) then 1 else 0))%nat.
Proof.
  intros Hv Hu. unfold split_loop.
  destruct (decide (fkey_uv = Some f)) as [E1|?], (decide (fkey_vu = Some f)) as [E2|?].
  - rewrite !inserted_before_length; [lia|by auto|].
    apply elem_of_inserted_before. by auto.
  - rewrite inserted_before_length by auto. lia.
  - rewrite inserted_before_length by auto. lia.
  - lia.
Qed.

Lemma split_he_new (m : Mesh) (u v w : Z) (fkey_uv fkey_vu : option Z) :
  u ≠ v → u ≠ w → v ≠ w →
  split_he m u v w fkey_uv fkey_vu u w = Some fkey_uv ∧
  split_he m u v w fkey_uv fkey_vu w v = Some fkey_uv ∧
  split_he m u v w fkey_uv fkey_vu v w = Some fkey_vu ∧
  split_he m u v w fkey_uv fkey_vu w u = Some fkey_vu ∧
  split_he m u v w fkey_uv fkey_vu u v = None ∧
  split_he m u v w fkey_uv fkey_vu v u = None.
Proof.
  intros Huv Huw Hvw. unfold split_he.
  repeat split; repeat case_decide; naive_solver.
Qed.

(** X3.  With [allow_boundary = True], [mesh_split_edge] splits every edge
    whose two half-edges are in the index, a boundary edge included: the
    new vertex [w] is fresh, the half-edges [(u, w)], [(w, v)] take over
    the entry of [(u, v)] and [(v, w)], [(w, u)] that of [(v, u)] (so a
    side without a face stays without one), [(u, v)] and [(v, u)] leave
    the index, every other entry stays, no face is created or deleted, and
    only the loops of the faces next to the edge change: [w] is put before
    [v] in the one and before [u] in the other. *)
Theorem mesh_split_edge_with_boundary (m : Mesh) (u v : Z) (t : Q)
    (fkey_uv fkey_vu : option Z) :
  (0 < t)%Q → (t < 1)%Q → splittable m u v fkey_uv fkey_vu →
  ∃ (w : Z) (m' : Mesh),
    mesh_split_edge u v t true m = (Ok (Some w), m') ∧
    (w ∉ dom (vertex m)) ∧ (w ∉ dom (halfedge m)) ∧
    dom (vertex m') = {[w]} ∪ dom (vertex m) ∧
    he m' u w = Some fkey_uv ∧ he m' w v = Some fkey_uv ∧
    he m' v w = Some fkey_vu ∧ he m' w u = Some fkey_vu ∧
    he m' u v = None ∧ he m' v u = None ∧
    (∀ x y, (x, y) ∉ [(u, v); (v, u); (u, w); (w, v); (v, w); (w, u)] →
            he m' x y = he m x y) ∧
    dom (face m') = dom (face m) ∧
    (∀ f loop, face m !! f = Some loop →
               face m' !! f = Some (split_loop fkey_uv fkey_vu u v w f loop)) ∧
    (∀ f loop, face m !! f = Some loop → Some f ≠ fkey_uv → Some f ≠ fkey_vu →
               face m' !! f = Some loop) ∧
    (∀ f loop, face m !! f = Some loop → fkey_uv = Some f → fkey_vu ≠ Some f →
               ∃ pre post, loop = pre ++ v :: post ∧ (v ∉ pre) ∧
                           face m' !! f = Some (pre ++ w :: v :: post)).
Proof.
  intros H0 H1 Hs.
  destruct (split_edge_spec m u v t true fkey_uv fkey_vu H0 H1 Hs)
    as (m' & a & b & Ha & Hb & Hrun & HV & HK & HFK & HD & Hhe & HF); [by left|].
  destruct Hs as (Hbd & Huv & Heuv & Hevu & _ & _ & Hfuv & Hfvu).
  destruct (keys_bounded_fresh m Hbd) as [Hwv Hwh].
  assert (u ≠ max_int_key m + 1) as Huw.
  { intros E. rewrite <- E in Hwh. unfold he in Heuv. by rewrite Hwh in Heuv. }
  assert (v ≠ max_int_key m + 1) as Hvw.
  { intros E. rewrite <- E in Hwh. unfold he in Hevu. by rewrite Hwh in Hevu. }
  destruct (split_he_new m u v (max_int_key m + 1) fkey_uv fkey_vu Huv Huw Hvw)
    as (N1 & N2 & N3 & N4 & N5 & N6).
  exists (max_int_key m + 1), m'. split; [done|].
  split; [by apply not_elem_of_dom|]. split; [by apply not_elem_of_dom|].
  split; [by rewrite HV, dom_insert_L|].
  rewrite !Hhe. do 6 (split; [done|]).
  split.
  { intros x y Hxy. rewrite Hhe. unfold split_he.
    rewrite !decide_False; [done|..]; intros [E|E]; apply Hxy; rewrite E;
      repeat first [by left | right]. }
  split.
  { apply set_eq. intros f. rewrite !elem_of_dom, HF.
    by rewrite fmap_is_Some. }
  split; [by intros f loop Hl; rewrite HF, Hl|].
  split.
  { intros f loop Hl N1' N2'. rewrite HF, Hl. simpl. unfold split_loop.
    by rewrite !decide_False by congruence. }
  intros f loop Hl E1 E2. rewrite HF, Hl. simpl. unfold split_loop.
  destruct (decide (fkey_uv = Some f)); [|done].
  destruct (decide (fkey_vu = Some f)); [done|].
  destruct (Hfuv f E1) as (loop' & Hl' & Hv).
  assert (loop' = loop) as -> by congruence.
  destruct (inserted_before_split v (max_int_key m + 1) loop Hv) as (pre & post & ? & ? & ->).
  by exists pre, post.
Qed.

Lemma mesh_split_edge_with_boundary_witness :
  ∃ (w : Z) (m' : Mesh),
    mesh_split_edge 0 1 (1 # 2) true quad_mesh = (Ok (Some w), m') ∧
    he m' 0 w = Some (Some 0) ∧ he m' w 1 = Some (Some 0) ∧
    he m' 1 w = Some None ∧ he m' w 0 = Some None ∧
    face m' !! 0 = Some [0; w; 1; 2; 3].
Proof.
  destruct (mesh_split_edge_with_boundary quad_mesh 0 1 (1 # 2) (Some 0) None)
    as (w & m' & E & _ & _ & _ & H1 & H2 & H3 & H4 & _ & _ & _ & _ & _ & _ & HF).
  - reflexivity.
  - reflexivity.
  - split; [by_compute|]. split; [lia|]. split; [reflexivity|]. split; [reflexivity|].
    split; [by eexists|]. split; [by eexists|]. split; [|done].
    intros f [= <-]. exists [0; 1; 2; 3]. split; [reflexivity|by_compute].
  - destruct (HF 0 [0; 1; 2; 3] eq_refl eq_refl) as (pre & post & Hl & Hpre & Hf);
      [done|].
    exists w, m'. do 5 (split; [done|]).
    destruct pre as [|x [|y pre]]; simplify_eq/=; [done|].
    exfalso. apply Hpre. right. by left.
Defined.

(** X4.  A split by [mesh_split_edge] can be repeated on the pieces: the
    registry invariants hold again, the mesh has one vertex more and the
    same faces, each face next to the edge has one loop entry more per side
    it lies on, both halves [(u, w)] and [(w, v)] are again edges that can
    be split, with the same faces next to them, and a further split of
    [(u, w)] is carried out and returns the key after [w]. *)
Theorem mesh_split_edge_repeatable (m : Mesh) (u v : Z) (t t' : Q)
    (allow_boundary : bool) (fkey_uv fkey_vu : option Z) :
  (0 < t)%Q → (t < 1)%Q → (0 < t')%Q → (t' < 1)%Q →
  splittable m u v fkey_uv fkey_vu → split_allowed allow_boundary fkey_uv fkey_vu →
  ∃ (w : Z) (m' m'' : Mesh),
    mesh_split_edge u v t allow_boundary m = (Ok (Some w), m') ∧
    keys_bounded m' ∧ (fkeys_bounded m → fkeys_bounded m') ∧
    size (vertex m') = S (size (vertex m)) ∧
    dom (face m') = dom (face m) ∧
    (∀ f loop, face m !! f = Some loop →
       ∃ loop', face m' !! f = Some loop' ∧ loop ⊆ loop' ∧
                length loop'
                = (length loop + (if decide (fkey_uv = Some f) then 1 else 0)
                               + (if decide (fkey_vu = Some f) then 1 else 0))%nat) ∧
    splittable m' u w fkey_uv fkey_vu ∧ splittable m' w v fkey_uv fkey_vu ∧
    mesh_split_edge u w t' allow_boundary m' = (Ok (Some (w + 1)), m'').
Proof.
  intros H0 H1 H0' H1' Hs Hallow.
  destruct (split_edge_spec m u v t allow_boundary fkey_uv fkey_vu H0 H1 Hs Hallow)
    as (m' & a & b & Ha & Hb & Hrun & HV & HK & HFK & HD & Hhe & HF).
  destruct Hs as (Hbd & Huv & Heuv & Hevu & _ & _ & Hfuv & Hfvu).
  destruct (keys_bounded_fresh m Hbd) as [Hwv Hwh].
  assert (u ≠ max_int_key m + 1) as Huw.
  { intros E. rewrite <- E in Hwh. unfold he in Heuv. by rewrite Hwh in Heuv. }
  assert (v ≠ max_int_key m + 1) as Hvw.
  { intros E. rewrite <- E in Hwh. unfold he in Hevu. by rewrite Hwh in Hevu. }
  destruct (split_he_new m u v (max_int_key m + 1) fkey_uv fkey_vu Huv Huw Hvw)
    as (N1 & N2 & N3 & N4 & N5 & N6).
  set (w := max_int_key m + 1) in *.
  assert (keys_bounded m') as Hbd'.
  { intros k. rewrite HV, HD, dom_insert_L, HK. intros Hk.
    assert (k = w ∨ k ∈ dom (vertex m) ∪ dom (halfedge m)) as [->|Hk'%Hbd]
      by set_solver; [done|]. simpl in Hk'. unfold w. lia. }
  assert (Hfaces : ∀ f loop, face m !! f = Some loop →
            face m' !! f = Some (split_loop fkey_uv fkey_vu u v w f loop))
    by (by intros f loop Hl; rewrite HF, Hl).
  assert (Hsuw : splittable m' u w fkey_uv fkey_vu).
  { split; [done|]. split; [done|]. rewrite !Hhe. split; [done|]. split; [done|].
    rewrite HV. split; [by rewrite lookup_insert_ne|].
    split; [by rewrite lookup_insert_eq|]. split.
    - intros f Hf. destruct (Hfuv f Hf) as (loop & Hl & Hv).
      eexists. split; [by apply Hfaces|]. apply split_loop_new. by left.
    - intros f Hf. destruct (Hfvu f Hf) as (loop & Hl & Hu).
      eexists. split; [by apply Hfaces|]. by apply split_loop_mono. }
  assert (Hswv : splittable m' w v fkey_uv fkey_vu).
  { split; [done|]. split; [done|]. rewrite !Hhe. split; [done|]. split; [done|].
    rewrite HV. split; [by rewrite lookup_insert_eq|].
    split; [by rewrite lookup_insert_ne|]. split.
    - intros f Hf. destruct (Hfuv f Hf) as (loop & Hl & Hv).
      eexists. split; [by apply Hfaces|]. by apply split_loop_mono.
    - intros f Hf. destruct (Hfvu f Hf) as (loop & Hl & Hu).
      eexists. split; [by apply Hfaces|]. apply split_loop_new. by right. }
  destruct (split_edge_spec m' u w t' allow_boundary fkey_uv fkey_vu H0' H1' Hsuw Hallow)
    as (m'' & a' & b' & _ & _ & Hrun' & _).
  rewrite HK in Hrun'.
  exists w, m', m''. split; [done|]. split; [done|]. split.
  { intros Hfb f. rewrite HFK. intros Hf. apply Hfb.
    apply elem_of_dom. apply elem_of_dom in Hf. by rewrite HF, fmap_is_Some in Hf. }
  split; [rewrite HV; by apply map_size_insert_None|].
  split.
  { apply set_eq. intros f. by rewrite !elem_of_dom, HF, fmap_is_Some. }
  split; [|done].
  intros f loop Hl. eexists. split; [by apply Hfaces|]. split.
  - intros y. apply split_loop_mono.
  - apply split_loop_length.
    + intros Hf. destruct (Hfuv f Hf) as (? & ? & ?). congruence.
    + intros Hf. destruct (Hfvu f Hf) as (? & ? & ?). congruence.
Qed.

Lemma mesh_split_edge_repeatable_witness :
  ∃ (w : Z) (m' m'' : Mesh),
    mesh_split_edge 0 1 (1 # 2) true quad_mesh = (Ok (Some w), m') ∧
    keys_bounded m' ∧ size (vertex m') = 5%nat ∧
    splittable m' 0 w (Some 0) None ∧
    mesh_split_edge 0 w (1 # 3) true m' = (Ok (Some (w + 1)), m'').
Proof.
  destruct (mesh_split_edge_repeatable quad_mesh 0 1 (1 # 2) (1 # 3) true (Some 0) None)
    as (w & m' & m'' & E & Hb & _ & Hsz & _ & _ & Hs & _ & E').
  - reflexivity.
  - reflexivity.
  - reflexivity.
  - reflexivity.
  - split; [by_compute|]. split; [lia|]. split; [reflexivity|]. split; [reflexivity|].
    split; [by eexists|]. split; [by eexists|]. split; [|done].
    intros f [= <-]. exists [0; 1; 2; 3]. split; [reflexivity|by_compute].
  - by left.
  - by exists w, m', m''.
Defined.

(** ** Face split: the calls that are turned down *)

(** X5.  [mesh_split_face] answers with [ValueError], and leaves the mesh
    as it was, when [u] or [v] is not on the face, and when [v] comes
    right after [u] in the stored loop (a loop without repetition). *)
Theorem mesh_split_face_rejects (policy : nonmanifold_policy) (m : Mesh)
    (fkey u v : Z) (loop : list Z) :
  face m !! fkey = Some loop →
  u ∉ loop ∨ v ∉ loop ∨ (NoDup loop ∧ ∃ A B, loop = A ++ u :: v :: B) →
  mesh_split_face policy fkey u v m = (Raise ValueError, m).
Proof.
  intros Hf [Hu|[Hv|[Hnd (A & B & ->)]]].
  - eapply mesh_split_face_not_member; [done|by left].
  - eapply mesh_split_face_not_member; [done|by right].
  - by eapply mesh_split_face_successor.
Qed.

Lemma mesh_split_face_rejects_witness :
  mesh_split_face Accept 0 0 7 quad_mesh = (Raise ValueError, quad_mesh) ∧
  mesh_split_face Accept 0 1 2 quad_mesh = (Raise ValueError, quad_mesh).
Proof.
  split.
  - apply (mesh_split_face_rejects Accept quad_mesh 0 0 7 [0; 1; 2; 3]);
      [reflexivity|]. right. left. by_compute.
  - apply (mesh_split_face_rejects Accept quad_mesh 0 1 2 [0; 1; 2; 3]);
      [reflexivity|]. right. right. split; [by_compute|]. by exists [0], [3].
Defined.

(** ** Triangle edge split: what it does to the tables as a whole *)







(** ** Face split: the half-edge index afterwards *)






(** * Further properties of traversal and connectivity *)

Lemma component_class (adjacency : gmap Z (list Z)) (c : list Z) (x : Z) :
  symmetric adjacency → is_component adjacency c → x ∈ c →
  ∀ z, z ∈ c ↔ reach adjacency x z.
Proof.
  intros Hsym (r & _ & _ & Hc) Hx z. rewrite Hc. apply Hc in Hx. split.
  - intros Hz. etrans; [by apply reach_sym|done].
  - intros Hz. by etrans.
Qed.

Lemma concat_elem (comps : list (list Z)) (x : Z) :
  x ∈ concat comps ↔ ∃ c, c ∈ comps ∧ x ∈ c.
Proof.
  rewrite list_elem_of_In, in_concat.
  split; intros (c & Hc & Hx); exists c; split; by apply list_elem_of_In.
Qed.

Lemma concat_length_ge (comps : list (list Z)) :
  Forall (λ c, c ≠ []) comps → (length comps ≤ length (concat comps))%nat.
Proof.
  induction 1 as [|c comps Hc _ IH]; simpl; [done|].
  rewrite length_app. destruct c; [done|]. simpl. lia.
Qed.

(** X8.  For a symmetric adjacency, two vertices lie in the same returned
    component exactly when a path joins them; no component is empty, there
    are at most as many components as vertices, and none exactly when the
    adjacency is empty. *)
Theorem connected_components_paths (choose : gset Z → nat)
    (adjacency : gmap Z (list Z)) :
  symmetric adjacency →
  ∃ comps,
    connected_components choose adjacency = Some (Ok comps) ∧
    (∀ x y, x ∈ dom adjacency →
            (∃ c, c ∈ comps ∧ x ∈ c ∧ y ∈ c) ↔ reach adjacency x y) ∧
    Forall (λ c, c ≠ []) comps ∧
    (length comps ≤ size adjacency)%nat ∧
    (comps = [] ↔ adjacency = ∅).
Proof.
  intros Hsym.
  destruct (connected_components_spec choose adjacency Hsym)
    as (comps & E & Hnd & Hcov & Hall).
  assert (Hne : Forall (λ c, c ≠ []) comps).
  { eapply Forall_impl; [exact Hall|]. intros c (r & _ & _ & Hc) ->.
    eapply not_elem_of_nil. apply Hc. constructor. }
  assert (Hlen : length (concat comps) = size adjacency).
  { rewrite <- size_dom. unfold size at 1, set_size. simpl.
    apply Permutation_length. apply NoDup_Permutation; [done|apply NoDup_elements|].
    intros x. by rewrite elem_of_elements, Hcov. }
  exists comps. split; [done|]. split; [|split; [done|split]].
  - intros x y Hx. split.
    + intros (c & Hc & Hxc & Hyc).
      rewrite Forall_forall in Hall.
      by apply (component_class adjacency c x Hsym (Hall c Hc) Hxc).
    + intros Hr. apply Hcov, concat_elem in Hx as (c & Hc & Hxc).
      exists c. split; [done|]. split; [done|].
      rewrite Forall_forall in Hall.
      by apply (component_class adjacency c x Hsym (Hall c Hc) Hxc).
  - rewrite <- Hlen. by apply concat_length_ge.
  - split.
    + intros ->. simpl in Hlen. symmetry in Hlen.
      by apply map_size_empty_inv in Hlen.
    + intros ->. rewrite map_size_empty in Hlen.
      pose proof (concat_length_ge comps Hne). destruct comps; [done|simpl in *; lia].
Qed.

Lemma connected_components_paths_witness :
  ∃ comps,
    connected_components (λ _, 0%nat) disjoint_triangles = Some (Ok comps) ∧
    ((∃ c, c ∈ comps ∧ 0 ∈ c ∧ 2 ∈ c) ↔ reach disjoint_triangles 0 2) ∧
    (length comps ≤ 6)%nat.
Proof.
  destruct (connected_components_paths (λ _, 0%nat) disjoint_triangles)
    as (comps & E & Hp & _ & Hl & _).
  - apply symmetricb_sound. vm_compute. reflexivity.
  - exists comps. split; [done|]. split; [|exact Hl].
    apply Hp. by_compute.
Defined.

Lemma components_sets (adjacency : gmap Z (list Z)) (comps : list (list Z)) :
  symmetric adjacency →
  NoDup (concat comps) →
  (∀ x, x ∈ dom adjacency ↔ x ∈ concat comps) →
  Forall (is_component adjacency) comps →
  NoDup (list_to_set <$> comps : list (gset Z)) ∧
  ∀ X : gset Z,
    X ∈ (list_to_set <$> comps : list (gset Z)) ↔
    ∃ r, r ∈ dom adjacency ∧ ∀ z, z ∈ X ↔ reach adjacency r z.
Proof.
  intros Hsym Hnd Hcov Hall. rewrite Forall_forall in Hall. split.
  - apply NoDup_alt. intros i j X. rewrite !list_lookup_fmap.
    destruct (comps !! i) as [c1|] eqn:E1; [|done].
    destruct (comps !! j) as [c2|] eqn:E2; [|done]. simpl.
    intros [= <-] [= HX].
    destruct (Hall c1 (list_elem_of_lookup_2 _ _ _ E1)) as (r & _ & _ & Hc).
    assert (r ∈ c1) as Hr by (apply Hc; constructor).
    apply (NoDup_concat_unique comps i j c1 c2 r); try done.
    apply (elem_of_list_to_set (C := gset Z)). rewrite HX.
    by apply elem_of_list_to_set.
  - intros X. rewrite list_elem_of_fmap. split.
    + intros (c & -> & Hc). destruct (Hall c Hc) as (r & Hr & _ & Hrc).
      exists r. split; [done|]. intros z. by rewrite elem_of_list_to_set.
    + intros (r & Hr & HX). apply Hcov, concat_elem in Hr as (c & Hc & Hrc).
      exists c. split; [|done]. apply set_eq. intros z.
      rewrite elem_of_list_to_set, HX.
      symmetry. by apply (component_class adjacency c r Hsym (Hall c Hc) Hrc).
Qed.

(** X9.  Which member [set.pop()] hands out does not matter to
    [connected_components]: for a symmetric adjacency two runs with
    different choices return the same components, as sets, up to the
    order of the list; in particular they return equally many. *)
Theorem connected_components_choice_independent (choose choose' : gset Z → nat)
    (adjacency : gmap Z (list Z)) :
  symmetric adjacency →
  ∃ comps comps',
    connected_components choose adjacency = Some (Ok comps) ∧
    connected_components choose' adjacency = Some (Ok comps') ∧
    (list_to_set <$> comps : list (gset Z)) ≡ₚ list_to_set <$> comps' ∧
    length comps = length comps'.
Proof.
  intros Hsym.
  destruct (connected_components_spec choose adjacency Hsym)
    as (comps & E & Hnd & Hcov & Hall).
  destruct (connected_components_spec choose' adjacency Hsym)
    as (comps' & E' & Hnd' & Hcov' & Hall').
  destruct (components_sets adjacency comps Hsym Hnd Hcov Hall) as [N1 M1].
  destruct (components_sets adjacency comps' Hsym Hnd' Hcov' Hall') as [N2 M2].
  assert (HP : (list_to_set <$> comps : list (gset Z)) ≡ₚ list_to_set <$> comps').
  { apply NoDup_Permutation; [done|done|]. intros X. by rewrite M1, M2. }
  exists comps, comps'. split; [done|]. split; [done|]. split; [done|].
  apply Permutation_length in HP. by rewrite !length_fmap in HP.
Qed.

Lemma connected_components_choice_independent_witness :
  ∃ comps comps',
    connected_components (λ _, 0%nat) disjoint_triangles = Some (Ok comps) ∧
    connected_components (λ _, 4%nat) disjoint_triangles = Some (Ok comps') ∧
    length comps = length comps'.
Proof.
  destruct (connected_components_choice_independent (λ _, 0%nat) (λ _, 4%nat)
              disjoint_triangles) as (comps & comps' & E & E' & _ & Hl).
  - apply symmetricb_sound. vm_compute. reflexivity.
  - by exists comps, comps'.
Defined.

Lemma network_is_connected_spec (choose : gset Z → nat) (n : Network) :
  closed (network_adjacency n) → dom (network_adjacency n) = dom (network_vertex n) →
  network_vertex n ≠ ∅ →
  ∃ (root : Z) (V : gset Z), root ∈ dom (network_adjacency n) ∧
            (∀ x, x ∈ V ↔ reach (network_adjacency n) root x) ∧
            network_is_connected choose n
            = Some (Ok (bool_decide (size V = size (dom (network_adjacency n))))).
Proof.
  intros Hclosed Hdom Hne.
  unfold network_is_connected, network_get_any_vertex, network_number_of_vertices.
  rewrite decide_False by done.
  destruct (pick_elem choose (dom (network_vertex n))) as (root & -> & Hroot).
  { intros Hd. apply Hne. by apply dom_empty_iff_L. }
  simpl. rewrite <- Hdom in Hroot.
  destruct (breadth_first_traverse_spec _ Hclosed root Hroot) as (V & -> & HV).
  exists root, V. split; [done|]. split; [done|].
  by rewrite Hdom, size_dom.
Qed.

(** X10.  On a mesh with a vertex, a row of the half-edge index per vertex
    and a symmetric index, the answer of [mesh_is_connected] does not
    depend on which vertex [get_any_vertex] hands out, and it is [True]
    exactly when every two vertices are joined by a path, as the
    docstring defines connectedness. *)
Theorem mesh_is_connected_paths (m : Mesh) :
  dom (halfedge m) = dom (vertex m) → symmetric (mesh_adjacency m) →
  vertex m ≠ ∅ →
  ∃ b : bool,
    (∀ choose, mesh_is_connected choose m = Some (Ok b)) ∧
    (b = true ↔
     ∀ x y, x ∈ dom (vertex m) → y ∈ dom (vertex m) → reach (mesh_adjacency m) x y).
Proof.
  intros Hdom Hsym Hne.
  pose proof (symmetric_closed _ Hsym) as Hclosed.
  assert (Hall : ∀ choose, ∃ b : bool,
            mesh_is_connected choose m = Some (Ok b) ∧
            (b = true ↔ connected (mesh_adjacency m))).
  { intros choose.
    destruct (mesh_is_connected_spec choose m Hclosed Hdom Hne)
      as (root & V & Hroot & HV & E).
    eexists. split; [exact E|].
    rewrite bool_decide_eq_true, (bfs_full_iff _ Hclosed root) by done.
    by apply (full_iff_connected _ Hclosed root). }
  destruct (Hall (λ _, 0%nat)) as (b & _ & Hb).
  exists b. split.
  - intros choose. destruct (Hall choose) as (b' & -> & Hb').
    do 2 f_equal. destruct b, b'; try done; [apply Hb', Hb|symmetry; apply Hb, Hb']; done.
  - rewrite Hb. unfold connected. by rewrite mesh_adjacency_dom, Hdom.
Qed.

Lemma mesh_is_connected_paths_witness :
  ∃ b : bool,
    mesh_is_connected (λ _, 2%nat) quad_mesh = Some (Ok b) ∧
    (b = true ↔
     ∀ x y, x ∈ dom (vertex quad_mesh) → y ∈ dom (vertex quad_mesh) →
            reach (mesh_adjacency quad_mesh) x y).
Proof.
  destruct (mesh_is_connected_paths quad_mesh) as (b & E & Hb).
  - by vm_compute.
  - apply symmetricb_sound. vm_compute. reflexivity.
  - intros He. by vm_compute in He.
  - exists b. split; [apply E|exact Hb].
Defined.

(** X11.  On a network with a vertex, an adjacency row per vertex and a
    symmetric adjacency, the answer of [network_is_connected] does not
    depend on which vertex [get_any_vertex] hands out, and it is [True]
    exactly when every two vertices are joined by a path. *)
Theorem network_is_connected_paths (n : Network) :
  dom (network_adjacency n) = dom (network_vertex n) →
  symmetric (network_adjacency n) → network_vertex n ≠ ∅ →
  ∃ b : bool,
    (∀ choose, network_is_connected choose n = Some (Ok b)) ∧
    (b = true ↔
     ∀ x y, x ∈ dom (network_vertex n) → y ∈ dom (network_vertex n) →
            reach (network_adjacency n) x y).
Proof.
  intros Hdom Hsym Hne.
  pose proof (symmetric_closed _ Hsym) as Hclosed.
  assert (Hall : ∀ choose, ∃ b : bool,
            network_is_connected choose n = Some (Ok b) ∧
            (b = true ↔ connected (network_adjacency n))).
  { intros choose.
    destruct (network_is_connected_spec choose n Hclosed Hdom Hne)
      as (root & V & Hroot & HV & E).
    eexists. split; [exact E|].
    rewrite bool_decide_eq_true, (bfs_full_iff _ Hclosed root) by done.
    by apply (full_iff_connected _ Hclosed root). }
  destruct (Hall (λ _, 0%nat)) as (b & _ & Hb).
  exists b. split.
  - intros choose. destruct (Hall choose) as (b' & -> & Hb').
    do 2 f_equal. destruct b, b'; try done; [apply Hb', Hb|symmetry; apply Hb, Hb']; done.
  - rewrite Hb. unfold connected. by rewrite Hdom.
Qed.

Lemma network_is_connected_paths_witness :
  ∃ b : bool,
    network_is_connected (λ _, 2%nat) quad_network = Some (Ok b) ∧
    (b = true ↔
     ∀ x y, x ∈ dom (network_vertex quad_network) →
            y ∈ dom (network_vertex quad_network) →
            reach (network_adjacency quad_network) x y).
Proof.
  destruct (network_is_connected_paths quad_network) as (b & E & Hb).
  - by vm_compute.
  - apply symmetricb_sound. vm_compute. reflexivity.
  - intros He. by vm_compute in He.
  - exists b. split; [apply E|exact Hb].
Defined.

(** * Further properties of the operator builder *)

(** ** The index lists of the adjacency, degree, connectivity and face matrices *)

Lemma key_index_lookup (m : Mesh) (k : Z) (i : nat) :
  key_index m !! k = Some i → vertices m !! i = Some k.
Proof.
  intros H. apply elem_of_list_to_map_2 in H.
  apply list_elem_of_lookup in H as [idx Hidx].
  apply lookup_zip_with_Some in Hidx as (k' & i' & [= <- <-] & Hk & Hi).
  apply lookup_seq in Hi as [-> _]. done.
Qed.

Lemma key_index_lt (m : Mesh) (k : Z) (i : nat) :
  key_index m !! k = Some i → (i < number_of_vertices m)%nat.
Proof.
  intros H%key_index_lookup. apply lookup_lt_Some in H.
  unfold vertices in H. by rewrite length_fmap, length_map_to_list in H.
Qed.

Lemma NoDup_vertices (m : Mesh) : NoDup (vertices m).
Proof. apply NoDup_fst_map_to_list. Qed.

Lemma mapM_result_Ok {A B} (f : A → result B) (l : list A) (k : list B) :
  mapM f l = Ok k ↔ Forall2 (λ x y, f x = Ok y) l k.
Proof.
  revert k. induction l as [|x l IH]; intros k; simpl.
  - split; [intros [= <-]; constructor|by intros ->%Forall2_nil_inv_l].
  - destruct (f x) as [y|e] eqn:Ef; simpl.
    + destruct (mapM f l) as [k'|e] eqn:El; simpl.
      * split.
        -- intros [= <-]. constructor; [done|]. by apply IH.
        -- intros (y' & k'' & Hy & Hk & ->)%Forall2_cons_inv_l.
           apply IH in Hk. unfold mret, result_ret. congruence.
      * split; [done|].
        intros (y' & k'' & Hy & Hk & ->)%Forall2_cons_inv_l.
        apply IH in Hk. congruence.
    + split; [done|].
      intros (y' & k'' & Hy & Hk & ->)%Forall2_cons_inv_l. congruence.
Qed.

Lemma mapM_result_Raise {A B} (f : A → result B) (l : list A) (e : exn) :
  mapM f l = Raise e → ∃ x, x ∈ l ∧ f x = Raise e.
Proof.
  induction l as [|x l IH]; simpl; [done|].
  destruct (f x) as [y|e'] eqn:Ef; simpl.
  - destruct (mapM f l) as [k'|e'] eqn:El; simpl; [done|].
    intros [= ->]. destruct IH as (x' & Hx' & Hf); [done|].
    exists x'. split; [by right|done].
  - intros [= ->]. exists x. split; [left|done].
Qed.

Lemma mapM_result_total {A B} (f : A → result B) (l : list A) :
  (∀ x, x ∈ l → ∃ y, f x = Ok y) → ∃ k, mapM f l = Ok k.
Proof.
  intros H. destruct (mapM f l) as [k|e] eqn:E; [by eexists|].
  apply mapM_result_Raise in E as (x & Hx & Hf).
  destruct (H x Hx) as [y Hy]. congruence.
Qed.

Lemma key_index_Some (m : Mesh) (k : Z) (i : nat) :
  key_index m !! k = Some i ↔ vertices m !! i = Some k.
Proof.
  split; [apply key_index_lookup|]. intros Hi.
  destruct (key_index_is_Some m k) as [j Hj].
  { apply vertices_elem. by eapply list_elem_of_lookup_2. }
  pose proof (key_index_lookup m k j Hj) as Hj'.
  by rewrite (NoDup_lookup _ _ _ _ (NoDup_vertices m) Hi Hj').
Qed.

Lemma he_is_Some (m : Mesh) (k k' : Z) (row : gmap Z (option Z)) :
  halfedge m !! k = Some row → is_Some (he m k k') ↔ k' ∈ dom row.
Proof. intros Hrow. unfold he. rewrite Hrow. simpl. by rewrite elem_of_dom. Qed.

Lemma neighbour_indices (m : Mesh) (k : Z) (rowk : gmap Z (option Z)) :
  halfedge m !! k = Some rowk → dom rowk ⊆ dom (vertex m) →
  ∃ row,
    (nbrs ← vertex_neighbors m k;
     mapM (λ nbr, lookup_or_raise KeyError (key_index m !! nbr)) nbrs) = Ok row ∧
    length row = size rowk ∧
    Forall (λ j, (j < number_of_vertices m)%nat) row ∧
    ∀ j k', vertices m !! j = Some k' → j ∈ row ↔ is_Some (he m k k').
Proof.
  intros Hrow Hsub. unfold vertex_neighbors. rewrite Hrow. simpl.
  destruct (mapM_result_total
              (λ nbr, lookup_or_raise KeyError (key_index m !! nbr))
              (map_to_list rowk).*1) as [row Erow].
  { intros nb Hin. apply list_elem_of_fmap in Hin as [[nb' f] [-> Hin]].
    apply elem_of_map_to_list in Hin.
    destruct (key_index_is_Some m nb') as [c Hc].
    - apply elem_of_dom, Hsub. apply elem_of_dom. by eexists.
    - exists c. simpl. by rewrite Hc. }
  exists row. split; [done|]. apply mapM_result_Ok in Erow.
  assert (Hlook : ∀ nb c, lookup_or_raise KeyError (key_index m !! nb) = Ok c
                          ↔ key_index m !! nb = Some c).
  { intros nb c. destruct (key_index m !! nb); simpl; naive_solver. }
  split; [|split].
  - apply Forall2_length in Erow.
    by rewrite <- Erow, length_fmap, length_map_to_list.
  - apply Forall_forall. intros j Hj.
    apply list_elem_of_lookup in Hj as [idx Hidx].
    destruct (Forall2_lookup_r _ _ _ _ _ Erow Hidx) as (nb & _ & Hnb).
    apply Hlook in Hnb. by eapply key_index_lt.
  - intros j k' Hj. rewrite (he_is_Some m k k' rowk Hrow). split.
    + intros Hin. apply list_elem_of_lookup in Hin as [idx Hidx].
      destruct (Forall2_lookup_r _ _ _ _ _ Erow Hidx) as (nb & Hnb & Hc).
      apply Hlook, key_index_Some in Hc.
      assert (nb = k') as -> by congruence.
      apply list_elem_of_lookup_2 in Hnb.
      apply list_elem_of_fmap in Hnb as [[nb' f] [-> Hin]].
      apply elem_of_map_to_list in Hin. apply elem_of_dom. by eexists.
    + intros [f Hf]%elem_of_dom.
      assert (k' ∈ (map_to_list rowk).*1) as Hin.
      { apply list_elem_of_fmap. exists (k', f). split; [done|].
        by apply elem_of_map_to_list. }
      apply list_elem_of_lookup in Hin as [idx Hidx].
      destruct (Forall2_lookup_l _ _ _ _ _ Erow Hidx) as (c & Hc & Hl).
      apply Hlook, key_index_Some in Hl.
      assert (c = j) as ->.
      { by apply (NoDup_lookup _ _ _ _ (NoDup_vertices m) Hl Hj). }
      by eapply list_elem_of_lookup_2.
Qed.

(** X14.  On a mesh in which every vertex has a row of the half-edge index
    and every neighbour is a vertex, [mesh_adjacency_matrix] and
    [mesh_degree_matrix] hand one and the same list to their builders: one
    row per vertex, in the order of [vertices]; the row of a vertex has as
    many entries as the vertex has neighbours, every entry is the index of
    a vertex, and the index of a vertex [k'] is in the row of [k] exactly
    when the half-edge [(k, k')] is in the index. *)
Theorem mesh_adjacency_matrix_lists {R Rtype : Type}
    (adjacency_matrix degree_matrix : result (list (list nat) → Rtype → result R))
    (m : Mesh) (rtype : Rtype) :
  dom (vertex m) ⊆ dom (halfedge m) →
  map_Forall (λ _ (row : gmap Z (option Z)), dom row ⊆ dom (vertex m)) (halfedge m) →
  ∃ adjacency : list (list nat),
    mesh_adjacency_matrix adjacency_matrix m rtype
    = (build ← adjacency_matrix; build adjacency rtype) ∧
    mesh_degree_matrix degree_matrix m rtype
    = (build ← degree_matrix; build adjacency rtype) ∧
    length adjacency = number_of_vertices m ∧
    Forall (Forall (λ j, (j < number_of_vertices m)%nat)) adjacency ∧
    ∀ i k, vertices m !! i = Some k →
           ∃ row rowk, adjacency !! i = Some row ∧ halfedge m !! k = Some rowk ∧
                       length row = size rowk ∧
                       ∀ j k', vertices m !! j = Some k' →
                               j ∈ row ↔ is_Some (he m k k').
Proof.
  intros Hrows Hnbrs.
  set (f := λ key, nbrs ← vertex_neighbors m key;
                   mapM (λ nbr, lookup_or_raise KeyError (key_index m !! nbr)) nbrs).
  assert (Hf : ∀ k, k ∈ vertices m →
            ∃ rowk row, halfedge m !! k = Some rowk ∧ f k = Ok row ∧
              length row = size rowk ∧
              Forall (λ j, (j < number_of_vertices m)%nat) row ∧
              ∀ j k', vertices m !! j = Some k' → j ∈ row ↔ is_Some (he m k k')).
  { intros k Hk%vertices_elem.
    assert (is_Some (halfedge m !! k)) as [rowk Hrowk]
      by (apply elem_of_dom, Hrows; by apply elem_of_dom).
    destruct (neighbour_indices m k rowk Hrowk (Hnbrs k rowk Hrowk))
      as (row & E & ?). by exists rowk, row. }
  destruct (mapM_result_total f (vertices m)) as [adjacency E].
  { intros k Hk. destruct (Hf k Hk) as (? & row & _ & ? & _). by exists row. }
  exists adjacency.
  split; [unfold mesh_adjacency_matrix; fold f; by rewrite E|].
  split; [unfold mesh_degree_matrix; fold f; by rewrite E|].
  apply mapM_result_Ok in E.
  split.
  { apply Forall2_length in E. rewrite <- E. unfold vertices, number_of_vertices.
    by rewrite length_fmap, length_map_to_list. }
  split.
  { apply Forall_forall. intros row Hrow.
    apply list_elem_of_lookup in Hrow as [i Hi].
    destruct (Forall2_lookup_r _ _ _ _ _ E Hi) as (k & Hk & Hfk).
    destruct (Hf k (list_elem_of_lookup_2 _ _ _ Hk)) as (? & row' & _ & Hfk' & _ & Hlt & _).
    congruence. }
  intros i k Hi.
  destruct (Forall2_lookup_l _ _ _ _ _ E Hi) as (row & Hrow & Hfk).
  destruct (Hf k (list_elem_of_lookup_2 _ _ _ Hi)) as (rowk & row' & Hrk & Hfk' & Hl & _ & Hm).
  assert (row' = row) as -> by congruence.
  by exists row, rowk.
Qed.

Lemma mesh_adjacency_matrix_lists_witness :
  ∃ adjacency : list (list nat),
    mesh_adjacency_matrix (Ok (λ (a : list (list nat)) (_ : unit), Ok a)) quad_mesh tt = Ok adjacency ∧
    mesh_degree_matrix (Ok (λ (a : list (list nat)) (_ : unit), Ok (reverse a))) quad_mesh tt
    = Ok (reverse adjacency) ∧
    length adjacency = 4%nat.
Proof.
  destruct (mesh_adjacency_matrix_lists
              (Ok (λ (a : list (list nat)) (_ : unit), Ok a)) (Ok (λ (a : list (list nat)) (_ : unit), Ok (reverse a)))
              quad_mesh tt) as (adjacency & E1 & E2 & Hl & _).
  - by_compute.
  - by_compute.
  - by exists adjacency.
Defined.

Lemma key_index_None (m : Mesh) (k : Z) :
  vertex m !! k = None → key_index m !! k = None.
Proof.
  intros Hk. destruct (key_index m !! k) as [i|] eqn:E; [|done].
  apply key_index_lookup, list_elem_of_lookup_2, vertices_elem in E.
  rewrite Hk in E. by destruct E.
Qed.

Lemma lookups_raise (ki : gmap Z nat) (l : list Z) (e : exn) :
  mapM (λ k, lookup_or_raise KeyError (ki !! k)) l = Raise e → e = KeyError.
Proof.
  intros (k & _ & Hk)%mapM_result_Raise. destruct (ki !! k); simpl in Hk; congruence.
Qed.

Lemma neighbour_indices_raise (m : Mesh) (ki : gmap Z nat) (k : Z) (e : exn) :
  (nbrs ← vertex_neighbors m k;
   mapM (λ nbr, lookup_or_raise KeyError (ki !! nbr)) nbrs) = Raise e →
  e = KeyError.
Proof.
  unfold vertex_neighbors. destruct (halfedge m !! k) as [row|]; simpl.
  - apply lookups_raise.
  - congruence.
Qed.

(** X15.  When a vertex has no row in the half-edge index, or its row
    names a key that is not a vertex, [mesh_adjacency_matrix] and
    [mesh_degree_matrix] raise [KeyError] while the index lists are being
    put together, whatever the builders are. *)
Theorem mesh_adjacency_matrix_key_error {R Rtype : Type}
    (adjacency_matrix degree_matrix : result (list (list nat) → Rtype → result R))
    (m : Mesh) (rtype : Rtype) (k : Z) :
  is_Some (vertex m !! k) →
  halfedge m !! k = None ∨
  (∃ row nb, halfedge m !! k = Some row ∧ nb ∈ dom row ∧ nb ∉ dom (vertex m)) →
  mesh_adjacency_matrix adjacency_matrix m rtype = Raise KeyError ∧
  mesh_degree_matrix degree_matrix m rtype = Raise KeyError.
Proof.
  intros Hk Hbad.
  set (f := λ key, nbrs ← vertex_neighbors m key;
                   mapM (λ nbr, lookup_or_raise KeyError (key_index m !! nbr)) nbrs).
  assert (Hfk : ∀ row, f k ≠ Ok row).
  { intros row. unfold f, vertex_neighbors.
    destruct Hbad as [->|(rowk & nb & -> & Hnb & Hnv)]; simpl; [done|].
    intros E%mapM_result_Ok.
    apply elem_of_dom in Hnb as [fk Hfk].
    assert (nb ∈ (map_to_list rowk).*1) as Hin.
    { apply list_elem_of_fmap. exists (nb, fk). split; [done|].
      by apply elem_of_map_to_list. }
    apply list_elem_of_lookup in Hin as [idx Hidx].
    destruct (Forall2_lookup_l _ _ _ _ _ E Hidx) as (c & _ & Hc).
    rewrite key_index_None in Hc; [done|]. by apply not_elem_of_dom. }
  assert (E : mapM f (vertices m) = Raise KeyError).
  { destruct (mapM f (vertices m)) as [adjacency|e] eqn:E.
    - apply mapM_result_Ok in E. apply vertices_elem in Hk.
      apply list_elem_of_lookup in Hk as [i Hi].
      destruct (Forall2_lookup_l _ _ _ _ _ E Hi) as (row & _ & Hrow).
      by destruct (Hfk row).
    - apply mapM_result_Raise in E as (x & _ & Hx).
      by apply neighbour_indices_raise in Hx as ->. }
  split; [unfold mesh_adjacency_matrix|unfold mesh_degree_matrix];
    fold f; by rewrite E.
Qed.

Lemma mesh_adjacency_matrix_key_error_witness :
  mesh_adjacency_matrix (R := list (list nat)) (Ok (λ a (_ : unit), Ok a))
    (set_halfedge (delete 2) quad_mesh) tt = Raise KeyError ∧
  mesh_degree_matrix (R := list (list nat)) (Ok (λ a (_ : unit), Ok a))
    (set_halfedge (delete 2) quad_mesh) tt = Raise KeyError.
Proof.
  apply (mesh_adjacency_matrix_key_error _ _ (set_halfedge (delete 2) quad_mesh) tt 2).
  - by eexists.
  - left. by vm_compute.
Defined.

Lemma enumerate_foldl_lookup (l : list Z) (a : nat) (d : gmap Z nat) (k : Z) :
  NoDup l →
  (∀ idx, l !! idx = Some k →
          foldl (λ d (ik : nat * Z), <[ik.2 := ik.1]> d) d (zip (seq a (length l)) l) !! k
          = Some (a + idx)%nat) ∧
  (k ∉ l →
   foldl (λ d (ik : nat * Z), <[ik.2 := ik.1]> d) d (zip (seq a (length l)) l) !! k
   = d !! k).
Proof.
  revert a d. induction l as [|x l IH]; intros a d Hnd.
  { split; [by intros idx ?|done]. }
  apply NoDup_cons in Hnd as [Hx Hnd]. simpl.
  destruct (IH (S a) (<[x := a]> d) Hnd) as [IH1 IH2]. split.
  - intros [|idx] Hidx; simpl in Hidx.
    + injection Hidx as ->. rewrite IH2 by done.
      rewrite lookup_insert_eq. f_equal. lia.
    + rewrite (IH1 idx Hidx). f_equal. lia.
  - intros Hk. apply not_elem_of_cons in Hk as [Hkx Hkl].
    rewrite IH2 by done. by rewrite lookup_insert_ne.
Qed.

Lemma enumerate_key_index (m : Mesh) :
  foldl (λ d (ik : nat * Z), <[ik.2 := ik.1]> d) ∅ (enumerate (vertices m))
  = key_index m.
Proof.
  apply map_eq. intros k. apply option_eq. intros i. rewrite key_index_Some.
  unfold enumerate.
  destruct (enumerate_foldl_lookup (vertices m) 0 ∅ k (NoDup_vertices m)) as [H1 H2].
  split.
  - intros Hi. destruct (decide (k ∈ vertices m)) as [Hin|Hnin].
    + apply list_elem_of_lookup in Hin as [idx Hidx].
      rewrite (H1 idx Hidx) in Hi. simpl in Hi. congruence.
    + rewrite (H2 Hnin) in Hi. done.
  - intros Hi. by rewrite (H1 i Hi).
Qed.

(** X16.  On a mesh whose face loops name vertices only,
    [mesh_face_matrix] hands its builder one row per face, in the order of
    [faces]; the row of a face has one entry per entry of the face loop,
    in the order of the loop, and each entry is the position of that
    vertex in [vertices], so that the loop can be read back from the
    row. *)
Theorem mesh_face_matrix_lists {R Rtype : Type}
    (face_matrix : result (list (list nat) → Rtype → result R))
    (m : Mesh) (rtype : Rtype) :
  map_Forall (λ _ loop, Forall (λ k, is_Some (vertex m !! k)) loop) (face m) →
  ∃ fvs : list (list nat),
    mesh_face_matrix face_matrix m rtype = (build ← face_matrix; build fvs rtype) ∧
    length fvs = size (face m) ∧
    ∀ i fkey, faces m !! i = Some fkey →
              ∃ row loop, fvs !! i = Some row ∧ face m !! fkey = Some loop ∧
                          Forall2 (λ key c, vertices m !! c = Some key) loop row.
Proof.
  intros Hwf. unfold mesh_face_matrix. rewrite enumerate_key_index.
  set (f := λ fkey, vs ← face_vertices m fkey;
                    mapM (λ key, lookup_or_raise KeyError (key_index m !! key)) vs).
  assert (Hf : ∀ fkey, fkey ∈ faces m →
            ∃ loop row, face m !! fkey = Some loop ∧ f fkey = Ok row ∧
                        Forall2 (λ key c, vertices m !! c = Some key) loop row).
  { intros fkey Hin. apply list_elem_of_fmap in Hin as [[fk loop] [-> Hin]].
    apply elem_of_map_to_list in Hin. simpl.
    pose proof (Hwf fk loop Hin) as Hloop. simpl in Hloop.
    rewrite Forall_forall in Hloop.
    destruct (mapM_result_total
                (λ key, lookup_or_raise KeyError (key_index m !! key)) loop)
      as [row Erow].
    { intros key Hkey. destruct (key_index_is_Some m key (Hloop key Hkey)) as [c Hc].
      exists c. by rewrite Hc. }
    exists loop, row. split; [done|].
    split; [unfold f, face_vertices; by rewrite Hin|].
    apply mapM_result_Ok in Erow. eapply Forall2_impl; [exact Erow|].
    intros key c Hc. apply key_index_Some. revert Hc. simpl.
    destruct (key_index m !! key); simpl; congruence. }
  destruct (mapM_result_total f (faces m)) as [fvs E].
  { intros fkey Hin. destruct (Hf fkey Hin) as (_ & row & _ & ? & _). by exists row. }
  exists fvs. split; [by rewrite E|].
  apply mapM_result_Ok in E. split.
  { apply Forall2_length in E. rewrite <- E. unfold faces.
    by rewrite length_fmap, length_map_to_list. }
  intros i fkey Hi.
  destruct (Forall2_lookup_l _ _ _ _ _ E Hi) as (row & Hrow & Hfk).
  destruct (Hf fkey (list_elem_of_lookup_2 _ _ _ Hi)) as (loop & row' & Hl & Hfk' & H2).
  assert (row' = row) as -> by congruence.
  by exists row, loop.
Qed.

Lemma mesh_face_matrix_lists_witness :
  ∃ fvs : list (list nat),
    mesh_face_matrix (R := list (list nat)) (Ok (λ a (_ : unit), Ok a)) two_triangles tt
    = Ok fvs ∧
    length fvs = 2%nat.
Proof.
  destruct (mesh_face_matrix_lists (R := list (list nat)) (Ok (λ a (_ : unit), Ok a))
              two_triangles tt) as (fvs & E & Hl & _).
  - by_compute.
  - by exists fvs.
Defined.

Lemma edges_elem (m : Mesh) (u v : Z) :
  (u, v) ∈ edges m → ∃ row, halfedge m !! u = Some row ∧ is_Some (row !! v).
Proof.
  unfold edges. intros H.
  apply list_elem_of_bind in H as [[u' row] [H Hin]].
  apply list_elem_of_bind in H as [[v' f] [H Hin']].
  apply elem_of_map_to_list in Hin, Hin'.
  destruct (bool_decide (u' < v') || negb (has_halfedge m v' u'));
    [|by apply elem_of_nil in H].
  apply list_elem_of_singleton in H as [= -> ->]. by eauto.
Qed.

Lemma edges_intro (m : Mesh) (u v : Z) :
  is_Some (he m u v) → u < v ∨ has_halfedge m v u = false → (u, v) ∈ edges m.
Proof.
  intros [f Hf] Hcond. unfold he in Hf.
  destruct (halfedge m !! u) as [row|] eqn:Hrow; [simpl in Hf|done].
  unfold edges. apply list_elem_of_bind. exists (u, row).
  split; [|by apply elem_of_map_to_list].
  apply list_elem_of_bind. exists (v, f). split; [|by apply elem_of_map_to_list].
  assert (bool_decide (u < v) || negb (has_halfedge m v u) = true) as ->.
  { destruct Hcond as [Hlt| ->]; [|apply orb_true_r].
    by rewrite bool_decide_eq_true_2. }
  left.
Qed.

Lemma edges_nonempty (m : Mesh) (u v : Z) :
  u ≠ v → is_Some (he m u v) → edges m ≠ [].
Proof.
  intros Huv Hhe.
  assert (∃ e, e ∈ edges m) as [e He]; [|intros E; rewrite E in He; by apply elem_of_nil in He].
  destruct (decide (u < v)) as [Hlt|Hge].
  { exists (u, v). apply edges_intro; [done|by left]. }
  destruct (has_halfedge m v u) eqn:Hvu.
  - exists (v, u). apply edges_intro; [|left; lia].
    unfold has_halfedge in Hvu. unfold he.
    destruct (halfedge m !! v) as [row|]; [simpl|done].
    by apply bool_decide_eq_true in Hvu.
  - exists (u, v). apply edges_intro; [done|by right].
Qed.

(** X17.  On a mesh whose half-edge index has rows for vertices only and
    names vertices only, [mesh_connectivity_matrix] hands its builder one
    pair of indices per edge, in the order of [edges]: the positions of
    the two end points in [vertices]. *)
Theorem mesh_connectivity_matrix_pairs {R Rtype : Type}
    (connectivity_matrix : result (list (nat * nat) → Rtype → result R))
    (m : Mesh) (rtype : Rtype) :
  dom (halfedge m) ⊆ dom (vertex m) →
  map_Forall (λ _ (row : gmap Z (option Z)), dom row ⊆ dom (vertex m)) (halfedge m) →
  ∃ pairs : list (nat * nat),
    mesh_connectivity_matrix connectivity_matrix m rtype
    = (build ← connectivity_matrix; build pairs rtype) ∧
    Forall2 (λ (uv : Z * Z) (ij : nat * nat),
               vertices m !! ij.1 = Some uv.1 ∧ vertices m !! ij.2 = Some uv.2)
            (edges m) pairs.
Proof.
  intros Hrows Hnbrs. unfold mesh_connectivity_matrix.
  set (f := λ uv : Z * Z,
              i ← lookup_or_raise KeyError (key_index m !! uv.1);
              j ← lookup_or_raise KeyError (key_index m !! uv.2);
              Ok (i, j)).
  assert (Hf : ∀ uv, uv ∈ edges m →
            ∃ ij, f uv = Ok ij ∧
                  vertices m !! ij.1 = Some uv.1 ∧ vertices m !! ij.2 = Some uv.2).
  { intros [u v] (row & Hrow & Hv)%edges_elem.
    destruct (key_index_is_Some m u) as [i Hi].
    { apply elem_of_dom, Hrows. apply elem_of_dom. by eexists. }
    destruct (key_index_is_Some m v) as [j Hj].
    { apply elem_of_dom. apply (Hnbrs u row Hrow). by apply elem_of_dom. }
    exists (i, j). unfold f. simpl. rewrite Hi, Hj. simpl.
    split; [done|]. split; by apply key_index_Some. }
  destruct (mapM_result_total f (edges m)) as [pairs E].
  { intros uv Huv. destruct (Hf uv Huv) as (ij & ? & _). by exists ij. }
  exists pairs. split; [by rewrite E|].
  apply mapM_result_Ok in E.
  apply Forall2_same_length_lookup. split; [by eapply Forall2_length|].
  intros idx uv ij Huv Hij.
  destruct (Forall2_lookup_l _ _ _ _ _ E Huv) as (ij' & Hij' & Hfuv).
  destruct (Hf uv (list_elem_of_lookup_2 _ _ _ Huv)) as (ij'' & Hfuv' & H1 & H2).
  assert (ij'' = ij) as -> by congruence. done.
Qed.

Lemma mesh_connectivity_matrix_pairs_witness :
  ∃ pairs : list (nat * nat),
    mesh_connectivity_matrix (R := list (nat * nat)) (Ok (λ a (_ : unit), Ok a))
      quad_mesh tt = Ok pairs ∧
    length pairs = length (edges quad_mesh).
Proof.
  destruct (mesh_connectivity_matrix_pairs (R := list (nat * nat))
              (Ok (λ a (_ : unit), Ok a)) quad_mesh tt) as (pairs & E & H2).
  - by_compute.
  - by_compute.
  - exists pairs. split; [done|]. symmetry. by eapply Forall2_length.
Defined.

(** ** Cotangent weights *)

(** X18.  As soon as the half-edge index has an entry between two distinct
    vertices, [trimesh_cotangent_laplacian_matrix] ends in [TypeError],
    whatever the geometry routines compute: [trimesh_edge_cotangents],
    which raises [TypeError] on every call, is called for the first
    edge. *)
Theorem trimesh_cotangent_laplacian_never_assembled
    (dot_vectors : xyz → xyz → Q) (cross_vectors : xyz → xyz → xyz)
    (length_vector : xyz → Q) (edge_vector : Mesh → Z → Z → result xyz)
    (mesh : Mesh) (u v : Z) :
  u ≠ v → is_Some (he mesh u v) →
  trimesh_edge_cotangents dot_vectors cross_vectors length_vector edge_vector mesh u v
  = Raise TypeError ∧
  trimesh_cotangent_laplacian_matrix dot_vectors cross_vectors length_vector
    edge_vector mesh = Raise TypeError.
Proof.
  intros Huv Hhe. split; [apply cotangents_arity|].
  apply cotangent_laplacian_raises. by eapply edges_nonempty.
Qed.

Lemma trimesh_cotangent_laplacian_never_assembled_witness :
  trimesh_cotangent_laplacian_matrix (λ _ _, 0%Q) (λ a _, a) (λ _, 1%Q)
    (λ _ _ _, Ok (XYZ 0 0 0)) quad_mesh = Raise TypeError.
Proof.
  apply (trimesh_cotangent_laplacian_never_assembled (λ _ _, 0%Q) (λ a _, a) (λ _, 1%Q)
           (λ _ _ _, Ok (XYZ 0 0 0)) quad_mesh 0 1); [lia|by eexists].
Defined.

Lemma getitem_out_of_range (l : list Z) (i : Z) :
  i < - Z.of_nat (length l) ∨ Z.of_nat (length l) ≤ i → getitem l i = Raise IndexError.
Proof.
  intros Hi. unfold getitem.
  destruct (decide (i < 0)); rewrite decide_False by lia; done.
Qed.

(** X19.  Called with its three arguments, [trimesh_edge_cotangent] raises
    [KeyError] for a pair that is not in the half-edge index, gives the
    weight [0] to a half-edge without face, and for a half-edge with a
    face it uses the key [v] as a position in the face loop: when [v] is
    not a valid position the call ends in [IndexError], whatever the
    geometry routines compute. *)
Theorem trimesh_edge_cotangent_lookup
    (dot_vectors : xyz → xyz → Q) (cross_vectors : xyz → xyz → xyz)
    (length_vector : xyz → Q) (edge_vector : Mesh → Z → Z → result xyz)
    (m : Mesh) (u v : Z) :
  (he m u v = None →
   trimesh_edge_cotangent dot_vectors cross_vectors length_vector edge_vector
     [PMesh m; PKey u; PKey v] = Raise KeyError) ∧
  (he m u v = Some None →
   trimesh_edge_cotangent dot_vectors cross_vectors length_vector edge_vector
     [PMesh m; PKey u; PKey v] = Ok 0%Q) ∧
  (∀ f loop,
     he m u v = Some (Some f) → face m !! f = Some loop →
     v < - Z.of_nat (length loop) ∨ Z.of_nat (length loop) ≤ v →
     trimesh_edge_cotangent dot_vectors cross_vectors length_vector edge_vector
       [PMesh m; PKey u; PKey v] = Raise IndexError).
Proof.
  unfold he. simpl. destruct (halfedge m !! u) as [row|]; simpl.
  - destruct (row !! v) as [[f|]|]; simpl; repeat split; try done.
    intros f' loop [= <-] -> Hv. simpl. by rewrite getitem_out_of_range.
  - repeat split; done.
Qed.

Lemma trimesh_edge_cotangent_lookup_witness :
  trimesh_edge_cotangent (λ _ _, 0%Q) (λ a _, a) (λ _, 1%Q) (λ _ _ _, Ok (XYZ 0 0 0))
    [PMesh two_triangles; PKey 2; PKey 3] = Raise IndexError ∧
  trimesh_edge_cotangent (λ _ _, 0%Q) (λ a _, a) (λ _, 1%Q) (λ _ _ _, Ok (XYZ 0 0 0))
    [PMesh two_triangles; PKey 0; PKey 3] = Ok 0%Q.
Proof.
  split.
  - destruct (trimesh_edge_cotangent_lookup (λ _ _, 0%Q) (λ a _, a) (λ _, 1%Q)
                (λ _ _ _, Ok (XYZ 0 0 0)) two_triangles 2 3) as (_ & _ & H).
    apply (H 1 [0; 2; 3]); [reflexivity | reflexivity | right; simpl; lia].
  - destruct (trimesh_edge_cotangent_lookup (λ _ _, 0%Q) (λ a _, a) (λ _, 1%Q)
                (λ _ _ _, Ok (XYZ 0 0 0)) two_triangles 0 3) as (_ & H & _).
    apply H. reflexivity.
Defined.

(** * Editing and connectivity *)

Lemma adj_edge_he (m : Mesh) (x y : Z) :
  adj_edge (mesh_adjacency m) x y ↔ is_Some (he m x y).
Proof.
  unfold adj_edge, mesh_adjacency, he. rewrite lookup_fmap.
  destruct (halfedge m !! x) as [row|]; simpl.
  - split.
    + intros (nbrs & [= <-] & Hy).
      apply list_elem_of_fmap in Hy as [[y' f] [-> Hin]].
      apply elem_of_map_to_list in Hin. by eexists.
    + intros [f Hf]. eexists. split; [done|].
      apply list_elem_of_fmap. exists (y, f). split; [done|].
      by apply elem_of_map_to_list.
  - split; [by intros (? & ? & _)|by intros [? ?]].
Qed.

Lemma split_he_is_Some (m : Mesh) (u v w : Z) (fkey_uv fkey_vu : option Z) (x y : Z) :
  u ≠ w → v ≠ w →
  is_Some (split_he m u v w fkey_uv fkey_vu x y) ↔
  (x, y) ∈ [(u, w); (w, v); (v, w); (w, u)] ∨
  ((x, y) ≠ (u, v) ∧ (x, y) ≠ (v, u) ∧ is_Some (he m x y)).
Proof.
  intros Huw Hvw. unfold split_he. rewrite !elem_of_cons, elem_of_nil.
  destruct (decide ((x, y) = (u, v) ∨ (x, y) = (v, u))) as [Hd|Hd].
  { split; [by intros [? ?]|]. intros [H|H]; [|naive_solver].
    exfalso. destruct Hd as [[= -> ->]|[= -> ->]], H as [?|[?|[?|[?|[]]]]];
      simplify_eq. }
  destruct (decide ((x, y) = (u, w) ∨ (x, y) = (w, v))) as [Hn|Hn].
  { split; [|by eauto]. intros _. left. naive_solver. }
  destruct (decide ((x, y) = (v, w) ∨ (x, y) = (w, u))) as [Hn'|Hn'].
  { split; [|by eauto]. intros _. left. naive_solver. }
  split; [|naive_solver]. intros Hs. right. naive_solver.
Qed.

(** X20.  Splitting an edge keeps a connected mesh connected: when
    [mesh_is_connected] answers [True] for a mesh with a symmetric
    half-edge index and a row per vertex, it answers [True] again after
    [mesh_split_edge] has split one of its edges, whichever vertex the
    traversal starts from. *)
Theorem mesh_split_edge_keeps_connected (choose choose' : gset Z → nat)
    (m : Mesh) (u v : Z) (t : Q) (allow_boundary : bool) (fkey_uv fkey_vu : option Z) :
  (0 < t)%Q → (t < 1)%Q →
  splittable m u v fkey_uv fkey_vu → split_allowed allow_boundary fkey_uv fkey_vu →
  dom (halfedge m) = dom (vertex m) → symmetric (mesh_adjacency m) →
  mesh_is_connected choose m = Some (Ok true) →
  ∃ (w : Z) (m' : Mesh),
    mesh_split_edge u v t allow_boundary m = (Ok (Some w), m') ∧
    symmetric (mesh_adjacency m') ∧
    mesh_is_connected choose' m' = Some (Ok true).
Proof.
  intros H0 H1 Hs Hallow Hdom Hsym Hconn.
  destruct (split_edge_spec m u v t allow_boundary fkey_uv fkey_vu H0 H1 Hs Hallow)
    as (m' & a & b & Ha & Hb & Hrun & HV & HK & HFK & HD & Hhe & HF).
  destruct Hs as (Hbd & Huv & Heuv & Hevu & _ & _ & Hfuv & Hfvu).
  destruct (keys_bounded_fresh m Hbd) as [Hwv Hwh].
  assert (u ≠ max_int_key m + 1) as Huw.
  { intros E. rewrite <- E in Hwh. unfold he in Heuv. by rewrite Hwh in Heuv. }
  assert (v ≠ max_int_key m + 1) as Hvw.
  { intros E. rewrite <- E in Hwh. unfold he in Hevu. by rewrite Hwh in Hevu. }
  set (w := max_int_key m + 1) in *.
  pose proof (symmetric_closed _ Hsym) as Hclosed.
  assert (Hne : vertex m ≠ ∅) by (intros E; by rewrite E in Ha).
  assert (Hc : connected (mesh_adjacency m)).
  { destruct (mesh_is_connected_spec choose m Hclosed Hdom Hne)
      as (root & V & Hroot & HV' & E).
    rewrite E in Hconn. injection Hconn as Hconn.
    apply bool_decide_eq_true in Hconn.
    apply (full_iff_connected _ Hclosed root V); [done..|].
    by apply (bfs_full_iff _ Hclosed root). }
  assert (Hedge : ∀ x y, adj_edge (mesh_adjacency m') x y ↔
            (x, y) ∈ [(u, w); (w, v); (v, w); (w, u)] ∨
            ((x, y) ≠ (u, v) ∧ (x, y) ≠ (v, u) ∧ adj_edge (mesh_adjacency m) x y)).
  { intros x y. rewrite !adj_edge_he, Hhe. by apply split_he_is_Some. }
  assert (Hsym' : symmetric (mesh_adjacency m')).
  { intros x y. rewrite !Hedge. intros [Hin|(N1 & N2 & Hxy)].
    - left. revert Hin. rewrite !elem_of_cons, !elem_of_nil.
      intros [?|[?|[?|[?|[]]]]]; simplify_eq; naive_solver.
    - right. split; [congruence|]. split; [congruence|]. by apply Hsym. }
  pose proof (symmetric_closed _ Hsym') as Hclosed'.
  assert (Hdom' : dom (halfedge m') = dom (vertex m')).
  { by rewrite HD, HV, dom_insert_L, Hdom. }
  assert (Hstep : ∀ x y, adj_edge (mesh_adjacency m) x y →
                         reach (mesh_adjacency m') x y).
  { intros x y Hxy.
    destruct (decide ((x, y) = (u, v))) as [[= -> ->]|N1].
    { eapply rtc_l; [|apply rtc_once]; apply Hedge; left.
      - left.
      - right. left. }
    destruct (decide ((x, y) = (v, u))) as [[= -> ->]|N2].
    { eapply rtc_l; [|apply rtc_once]; apply Hedge; left.
      - right. right. left.
      - right. right. right. left. }
    apply rtc_once. apply Hedge. by right. }
  assert (Hreach : ∀ x y, reach (mesh_adjacency m) x y → reach (mesh_adjacency m') x y).
  { intros x y. induction 1 as [|x y z Hxy _ IH]; [constructor|].
    etrans; [by apply Hstep|done]. }
  assert (Hu : u ∈ dom (mesh_adjacency m)).
  { rewrite mesh_adjacency_dom, Hdom. apply elem_of_dom. by eexists. }
  assert (Huw' : reach (mesh_adjacency m') u w).
  { apply rtc_once, Hedge. left. left. }
  assert (Hwu' : reach (mesh_adjacency m') w u).
  { apply rtc_once, Hedge. left. right. right. right. left. }
  assert (Hc' : connected (mesh_adjacency m')).
  { assert (Hfrom : ∀ x, x ∈ dom (mesh_adjacency m') → reach (mesh_adjacency m') x u).
    { intros x. rewrite mesh_adjacency_dom, HD, <- (mesh_adjacency_dom m).
      intros [->%elem_of_singleton|Hx]%elem_of_union; [done|].
      apply Hreach. by apply Hc. }
    intros x y Hx Hy. etrans; [by apply Hfrom|].
    apply reach_sym; [done|]. by apply Hfrom. }
  assert (Hne' : vertex m' ≠ ∅).
  { rewrite HV. apply insert_non_empty. }
  exists w, m'. split; [done|]. split; [done|].
  destruct (mesh_is_connected_spec choose' m' Hclosed' Hdom' Hne')
    as (root & V & Hroot & HV' & E).
  rewrite E. do 2 f_equal. apply bool_decide_eq_true.
  apply (bfs_full_iff _ Hclosed' root); [done..|].
  by apply (full_iff_connected _ Hclosed' root V).
Qed.

Lemma mesh_split_edge_keeps_connected_witness :
  ∃ (w : Z) (m' : Mesh),
    mesh_split_edge 0 1 (1 # 2) true quad_mesh = (Ok (Some w), m') ∧
    mesh_is_connected (λ _, 3%nat) m' = Some (Ok true).
Proof.
  destruct (mesh_split_edge_keeps_connected (λ _, 0%nat) (λ _, 3%nat)
              quad_mesh 0 1 (1 # 2) true (Some 0) None)
    as (w & m' & E & _ & Hc).
  - reflexivity.
  - reflexivity.
  - split; [by_compute|]. split; [lia|]. split; [reflexivity|]. split; [reflexivity|].
    split; [by eexists|]. split; [by eexists|]. split; [|done].
    intros f [= <-]. exists [0; 1; 2; 3]. split; [reflexivity|by_compute].
  - by left.
  - by vm_compute.
  - apply symmetricb_sound. vm_compute. reflexivity.
  - by vm_compute.
  - by exists w, m'.
Defined.





